(** * Geometric region resolution of [LayoutAnalyzer]

    A shallow embedding of [src/page/layout_analyzer.py]: the rectangle
    geometry ([_box_area], [_contains], [_iou], [_containment_ratio]), the
    greedy hierarchical filter, the overlap resolver, the page-to-image
    coordinate map and the text attachment.

    Numbers.  Python [float] coordinates, scores and thresholds are modelled
    by rationals [Q] with exact arithmetic; every comparison the code makes
    is a comparison of rationals, and [==] is [Qeq].  Rounding, infinities
    and NaN are outside the model.  Division is kept fallible, as in Python,
    so that the guards in front of it mean something. *)

From Stdlib Require Import QArith Qminmax Lqa Lia PeanoNat List Bool String Ascii.
From Stdlib Require Import Permutation Sorted.
Import ListNotations.
Local Open Scope Q_scope.

(* ================================================================== *)
(** * Part I: definitions *)
(* ================================================================== *)

(** ** Python primitives used by the module *)

Module Py.

(** The two exceptions the modelled code can raise. *)
Inductive exn : Type :=
| AttributeError (attr : string)
| ZeroDivisionError.

Inductive result (A : Type) : Type :=
| Ok (a : A)
| Raise (e : exn).
Arguments Ok {A} a.
Arguments Raise {A} e.

Definition bind {A B : Type} (m : result A) (k : A -> result B) : result B :=
  match m with
  | Ok a => k a
  | Raise e => Raise e
  end.

(** [x < y], [x >= y], [x > y] on floats. *)
Definition lt (x y : Q) : bool := negb (Qle_bool y x).
Definition ge (x y : Q) : bool := Qle_bool y x.
Definition gt (x y : Q) : bool := lt y x.
Definition le (x y : Q) : bool := Qle_bool x y.

(** [max(a, b)] and [min(a, b)]: the first argument wins a tie. *)
Definition max (a b : Q) : Q := if gt b a then b else a.
Definition min (a b : Q) : Q := if lt b a then b else a.

(** [n / d]: raises [ZeroDivisionError] when [d == 0]. *)
Definition truediv (n d : Q) : result Q :=
  if Qeq_bool d 0 then Raise ZeroDivisionError else Ok (n / d).

(** [<] on 2-tuples of floats: the first components decide unless they
    are equal. *)
Definition tuple_lt (a b : Q * Q) : bool :=
  if Qeq_bool (fst a) (fst b) then lt (snd a) (snd b) else lt (fst a) (fst b).

(** [sorted(xs, key=key)]: the sort is stable and compares keys with [<]
    only.  An element is inserted in front of the sorted remainder and
    moves right past exactly the elements with a strictly smaller key. *)
Section Sorted.
Context {A K : Type} (key_lt : K -> K -> bool) (key : A -> K).

Fixpoint insert (x : A) (l : list A) : list A :=
  match l with
  | [] => [x]
  | y :: ys => if key_lt (key y) (key x) then y :: insert x ys else x :: y :: ys
  end.

Definition sorted (l : list A) : list A := fold_right insert [] l.

(** [a] may stand before [b] in the result: [b]'s key is not strictly
    smaller. *)
Definition in_order (a b : A) : Prop := key_lt (key b) (key a) = false.
End Sorted.

(** [str.isspace] on the characters a [string] can hold (code points
    below 256): TAB..CR, FS..US, space, NEL and NBSP. *)
Definition isspace (c : ascii) : bool :=
  let n := nat_of_ascii c in
  ((9 <=? n) && (n <=? 13) || (28 <=? n) && (n <=? 32)
   || (n =? 133) || (n =? 160))%nat.

Fixpoint lstrip (s : string) : string :=
  match s with
  | EmptyString => EmptyString
  | String c s' => if isspace c then lstrip s' else s
  end.

Fixpoint rstrip (s : string) : string :=
  match s with
  | EmptyString => EmptyString
  | String c s' =>
      match rstrip s' with
      | EmptyString => if isspace c then EmptyString else String c EmptyString
      | r => String c r
      end
  end.

(** [s.strip()] *)
Definition strip (s : string) : string := rstrip (lstrip s).

(** Truth value of a [str]: non-empty. *)
Definition truthy (s : string) : bool :=
  match s with EmptyString => false | String _ _ => true end.

End Py.

Import Py.

Notation "x <- m ;; k" := (Py.bind m (fun x => k))
  (at level 61, m at next level, right associativity).

(** ** Data model *)

(** [layoutparser.elements.Rectangle]: corner coordinates as given, with no
    normalisation. *)
Record Rectangle : Type := mkRectangle {
  x_1 : Q;
  y_1 : Q;
  x_2 : Q;
  y_2 : Q
}.

(** [layoutparser.elements.TextBlock] as the detector produces it: a
    rectangle, a label and a score ([BoxProtocol] declares [score: float],
    so [getattr(b, "score", 0.0)] reads this field). *)
Record TextBlock : Type := mkTextBlock {
  block : Rectangle;
  type : string;
  score : Q
}.

Definition Layout : Type := list TextBlock.

(** [b.coordinates] *)
Definition coordinates (b : TextBlock) : Q * Q * Q * Q :=
  (x_1 (block b), y_1 (block b), x_2 (block b), y_2 (block b)).

(** ** RegionGeometry *)

Definition _box_area (b : TextBlock) : Q :=
  let '(x1, y1, x2, y2) := coordinates b in
  Py.max 0 (x2 - x1) * Py.max 0 (y2 - y1).

Definition _contains (outer inner : TextBlock) (tol : Z) : bool :=
  let '(ox1, oy1, ox2, oy2) := coordinates outer in
  let '(ix1, iy1, ix2, iy2) := coordinates inner in
  Py.ge ix1 (ox1 - inject_Z tol) && Py.ge iy1 (oy1 - inject_Z tol)
  && Py.le ix2 (ox2 + inject_Z tol) && Py.le iy2 (oy2 + inject_Z tol).

Definition _iou (el1 el2 : TextBlock) : result Q :=
  let '(x11, y11, x12, y12) := coordinates el1 in
  let '(x21, y21, x22, y22) := coordinates el2 in
  let xi1 := Py.max x11 x21 in
  let yi1 := Py.max y11 y21 in
  let xi2 := Py.min x12 x22 in
  let yi2 := Py.min y12 y22 in
  let inter_w := Py.max 0 (xi2 - xi1) in
  let inter_h := Py.max 0 (yi2 - yi1) in
  let inter_area := inter_w * inter_h in
  let area1 := _box_area el1 in
  let area2 := _box_area el2 in
  let union_area := area1 + area2 - inter_area in
  if Py.gt union_area 0 then Py.truediv inter_area union_area else Ok 0.

Definition _containment_ratio (inner outer : TextBlock) : result Q :=
  let '(ix1, iy1, ix2, iy2) := coordinates inner in
  let '(ox1, oy1, ox2, oy2) := coordinates outer in
  let xi1 := Py.max ix1 ox1 in
  let yi1 := Py.max iy1 oy1 in
  let xi2 := Py.min ix2 ox2 in
  let yi2 := Py.min iy2 oy2 in
  let inter_area := Py.max 0 (xi2 - xi1) * Py.max 0 (yi2 - yi1) in
  let inner_area := _box_area inner in
  if Py.gt inner_area 0 then Py.truediv inter_area inner_area else Ok 0.

(** The spec's [intersectionArea(r1, r2)]: area of the overlap rectangle,
    0 if there is none.  The code has no function of this name; [_iou] and
    [_containment_ratio] compute it inline. *)
Definition intersectionArea (r1 r2 : Rectangle) : Q :=
  Py.max 0 (Py.min (x_2 r1) (x_2 r2) - Py.max (x_1 r1) (x_1 r2))
  * Py.max 0 (Py.min (y_2 r1) (y_2 r2) - Py.max (y_1 r1) (y_1 r2)).

(** The value [_iou] returns, as a plain rational. *)
Definition iou_value (el1 el2 : TextBlock) : Q :=
  let inter := intersectionArea (block el1) (block el2) in
  let union := _box_area el1 + _box_area el2 - inter in
  if Py.gt union 0 then inter / union else 0.

Definition containment_value (inner outer : TextBlock) : Q :=
  if Py.gt (_box_area inner) 0
  then intersectionArea (block inner) (block outer) / _box_area inner
  else 0.

(** The suppression test on one pair, on the values the two ratio functions
    return: what one iteration of [_suppress_with_rules] decides. *)
Definition suppress_pair (const_thresh iou_thresh : Q) (tol : Z)
    (candidate sel : TextBlock) : bool :=
  _contains sel candidate tol
  || Py.ge (containment_value candidate sel) const_thresh
  || Py.ge (iou_value candidate sel) iou_thresh.

(** The spec's discard condition of step 3a for a selected [s] and a
    candidate [c], stated on the functions of the code. *)
Definition redundant_with (const_thresh iou_thresh : Q) (tol : Z)
    (s c : TextBlock) : Prop :=
  _contains s c tol = true
  \/ (exists r, _containment_ratio c s = Ok r /\ const_thresh <= r)
  \/ (exists i, _iou c s = Ok i /\ iou_thresh <= i).

(** The order the sort key induces: [a] may stand before [b]. *)
Definition precedes (a b : TextBlock) : Prop :=
  score b < score a \/ (score a == score b /\ _box_area b <= _box_area a).

(** Order-preserving sub-sequence. *)
Inductive subseq {A : Type} : list A -> list A -> Prop :=
| subseq_nil : subseq [] []
| subseq_skip (x : A) (l k : list A) : subseq l k -> subseq l (x :: k)
| subseq_keep (x : A) (l k : list A) : subseq l k -> subseq (x :: l) (x :: k).

(** ** HierarchicalSuppressor *)

(** Sort key [(-score, -area)]. *)
Definition score_area_key (b : TextBlock) : Q * Q := (- score b, - _box_area b).

Definition _sorted_by_score_then_area (boxes : list TextBlock) : list TextBlock :=
  Py.sorted Py.tuple_lt score_area_key boxes.

(** The [for sel in selected] loop with its early [return True]; the [or]
    chain short-circuits from the left. *)
Fixpoint _suppress_with_rules (selected : Layout) (candidate : TextBlock)
    (const_thresh iou_thresh : Q) (tol : Z) : result bool :=
  match selected with
  | [] => Ok false
  | sel :: rest =>
      if _contains sel candidate tol then Ok true else
      r <- _containment_ratio candidate sel ;;
      if Py.ge r const_thresh then Ok true else
      i <- _iou candidate sel ;;
      if Py.ge i iou_thresh then Ok true else
      _suppress_with_rules rest candidate const_thresh iou_thresh tol
  end.

(** Signature of the method [_remove_superseded] calls as [self._conflict]:
    [(keeper, sel, const_thresh, iou_thresh, tol) -> bool]. *)
Definition conflict_method : Type := TextBlock -> TextBlock -> Q -> Q -> Z -> bool.

(** What attribute lookup finds on [self].  Every other method the modelled
    code calls is defined in the class body; [_conflict] is the one name
    whose lookup has to be modelled, [None] standing for a failed lookup. *)
Record Self : Type := mkSelf {
  attr__conflict : option conflict_method
}.

(** The class as the repository defines it: no [_conflict] in the class
    body, none assigned in [__init__], no subclass. *)
Definition LayoutAnalyzer : Self := {| attr__conflict := None |}.

(** The list comprehension [[sel for sel in selected if not
    self._conflict(keeper, sel, ...)]]: the attribute is looked up once per
    element, so an empty [selected] never touches it. *)
Fixpoint _remove_superseded (self : Self) (selected : Layout) (keeper : TextBlock)
    (const_thresh iou_thresh : Q) (tol : Z) : result Layout :=
  match selected with
  | [] => Ok []
  | sel :: rest =>
      match attr__conflict self with
      | None => Raise (AttributeError "_conflict")
      | Some conflict =>
          let hit := conflict keeper sel const_thresh iou_thresh tol in
          remain <- _remove_superseded self rest keeper const_thresh iou_thresh tol ;;
          Ok (if hit then remain else sel :: remain)
      end
  end.

(** Body of the [for box in candidates] loop of [_hierarchical_filter]. *)
Definition filter_step (self : Self) (const_tresh iou_thresh : Q) (tol : Z)
    (selected : Layout) (box : TextBlock) : result Layout :=
  suppressed <- _suppress_with_rules selected box const_tresh iou_thresh tol ;;
  if (suppressed : bool) then Ok selected else
  kept <- _remove_superseded self selected box const_tresh iou_thresh tol ;;
  Ok (kept ++ [box]).

(** The loop itself, from a given accumulator. *)
Fixpoint filter_loop (self : Self) (const_tresh iou_thresh : Q) (tol : Z)
    (selected : Layout) (candidates : list TextBlock) : result Layout :=
  match candidates with
  | [] => Ok selected
  | box :: rest =>
      selected' <- filter_step self const_tresh iou_thresh tol selected box ;;
      filter_loop self const_tresh iou_thresh tol selected' rest
  end.

(** The first two statements of [_hierarchical_filter]: score filter, then
    the sort that fixes the processing order. *)
Definition filter_candidates (layout : Layout) (min_score : Q) : list TextBlock :=
  _sorted_by_score_then_area (filter (fun b => Py.ge (score b) min_score) layout).

Definition _hierarchical_filter (self : Self) (layout : Layout)
    (min_score const_tresh iou_thresh : Q) (tol : Z) : result Layout :=
  let candidates := filter_candidates layout min_score in
  filter_loop self const_tresh iou_thresh tol [] candidates.

(** Whether [keeper] disturbs a selected [sel] when it is accepted: the
    lookup of [_conflict] fails, or the method found answers [True].
    [_remove_superseded] leaves [selected] as it is exactly when no element
    is disturbed. *)
Definition disturbs (self : Self) (const_thresh iou_thresh : Q) (tol : Z)
    (keeper sel : TextBlock) : bool :=
  match attr__conflict self with
  | None => true
  | Some conflict => conflict keeper sel const_thresh iou_thresh tol
  end.

(** A pair [s] before [t] of an accumulator that a re-run leaves alone: [t]
    is not suppressed by [s] and does not disturb it. *)
Definition compatible (self : Self) (const_thresh iou_thresh : Q) (tol : Z)
    (s t : TextBlock) : Prop :=
  suppress_pair const_thresh iou_thresh tol t s = false
  /\ disturbs self const_thresh iou_thresh tol t s = false.


(** ** OverlapResolver *)

Definition _rect_intersects (r1 r2 : Rectangle) : bool :=
  let xi1 := Py.max (x_1 r1) (x_1 r2) in
  let yi1 := Py.max (y_1 r1) (y_1 r2) in
  let xi2 := Py.min (x_2 r1) (x_2 r2) in
  let yi2 := Py.min (y_2 r1) (y_2 r2) in
  Py.gt (xi2 - xi1) 0 && Py.gt (yi2 - yi1) 0.

(** [None] is Python's [None]. *)
Definition _subtract_overlap (src other : Rectangle) : option Rectangle :=
  if negb (_rect_intersects src other) then Some src else
  let new_rect :=
    if Py.lt (y_1 src) (y_1 other) && Py.lt (y_1 other) (y_2 src)
    then mkRectangle (x_1 src) (y_1 src) (x_2 src) (y_1 other)
    else mkRectangle (x_1 src) (y_2 other) (x_2 src) (y_2 src) in
  if Py.le (x_2 new_rect - x_1 new_rect) 0 || Py.le (y_2 new_rect - y_1 new_rect) 0
  then None
  else Some new_rect.

(** The inner loop [for accepted in resolved] of [_resolve_overlaps], with
    its [break] on [None]. *)
Fixpoint resolve_against (rect : Rectangle) (resolved : list TextBlock)
    : option Rectangle :=
  match resolved with
  | [] => Some rect
  | accepted :: rest =>
      if _rect_intersects rect (block accepted) then
        match _subtract_overlap rect (block accepted) with
        | None => None
        | Some new_rect => resolve_against new_rect rest
        end
      else resolve_against rect rest
  end.

(** Body of the outer loop [for blk in ordered]. *)
Definition resolve_step (resolved : list TextBlock) (blk : TextBlock)
    : list TextBlock :=
  match resolve_against (block blk) resolved with
  | None => resolved
  | Some rect => resolved ++ [mkTextBlock rect (type blk) (score blk)]
  end.

Section Resolver.

(** [b.area] is a property of layoutparser's elements, outside the
    repository; it is only used as the sort key. *)
Variable area : TextBlock -> Q.

Definition _resolve_overlaps (layout : Layout) : Layout :=
  let ordered := Py.sorted Py.lt area layout in
  fold_left resolve_step ordered [].

End Resolver.

(** layoutparser's [Rectangle.area]: width times height. *)
Definition lp_area (b : TextBlock) : Q :=
  (x_2 (block b) - x_1 (block b)) * (y_2 (block b) - y_1 (block b)).

(** [out] keeps the horizontal extent of [src] and lies within its vertical
    extent. *)
Definition vertical_part (src out : Rectangle) : Prop :=
  x_1 out = x_1 src /\ x_2 out = x_2 src
  /\ y_1 src <= y_1 out /\ y_2 out <= y_2 src.

(** An output block [o] of the resolver and the input block [b] it was made
    from. *)
Definition came_from (b o : TextBlock) : Prop :=
  vertical_part (block b) (block o) /\ type o = type b /\ score o = score b.

(** Strictly positive width and height. *)
Definition proper (r : Rectangle) : Prop :=
  0 < x_2 r - x_1 r /\ 0 < y_2 r - y_1 r.

(** Two blocks of the resolver's output, the later one [b]. *)
Definition apart (a b : TextBlock) : Prop :=
  _rect_intersects (block b) (block a) = false.

(** ** CoordinateMapper *)

(** [fitz.Rect]: [(x0, y0)] and [(x1, y1)] are two opposite corners. *)
Record FitzRect : Type := mkFitzRect {
  x0 : Q;
  y0 : Q;
  x1 : Q;
  y1 : Q
}.

Definition _rect_to_image_xy (rect : FitzRect) (page_height_pt scale : Q)
    : Q * Q * Q * Q :=
  let x1' := x0 rect * scale in
  let y1' := (page_height_pt - y1 rect) * scale in
  let x2' := x1 rect * scale in
  let y2' := (page_height_pt - y0 rect) * scale in
  (x1', y1', x2', y2').

(** ** TextAttacher *)

(** A span of [page.get_text("dict")]: [sp.get("text")] may be missing. *)
Record Span : Type := mkSpan {
  span_text : option string;
  span_bbox : FitzRect
}.

(** [blocks -> lines -> spans]; a block without ["lines"] is an empty list. *)
Definition TextDict : Type := list (list (list Span)).

Record Page : Type := mkPage {
  rect_height : Q;
  text_dict : TextDict
}.

(** The dicts built by [analyze_page_with_resolved_text]. *)
Record Block : Type := mkBlock {
  text : string;
  bbox_px : Rectangle;
  btype : string
}.

(** The local function [to_px_flipped] of [_attach_text]. *)
Definition to_px_flipped (page_h_pt scale : Q) (rect_pt : FitzRect) : Rectangle :=
  let page_h_px := page_h_pt * scale in
  let '(x1', y1', x2', y2') := _rect_to_image_xy rect_pt page_h_pt scale in
  mkRectangle x1' (page_h_px - y2') x2' (page_h_px - y1').

(** [for target in blocks: if intersects: target["text"] += txt + " "; break] *)
Fixpoint attach_to_first (span_rect_px : Rectangle) (txt : string)
    (blocks : list Block) : list Block :=
  match blocks with
  | [] => []
  | target :: rest =>
      if _rect_intersects span_rect_px (bbox_px target)
      then mkBlock (text target ++ txt ++ " ")%string (bbox_px target) (btype target) :: rest
      else target :: attach_to_first span_rect_px txt rest
  end.

(** [(sp.get("text") or "").strip()] *)
Definition span_txt (sp : Span) : string :=
  Py.strip (match span_text sp with
            | Some s => if Py.truthy s then s else ""%string
            | None => ""%string
            end).

(** Body of the innermost [for sp in ...] loop. *)
Definition attach_span (page_h_pt scale : Q) (blocks : list Block) (sp : Span)
    : list Block :=
  let txt := span_txt sp in
  if negb (Py.truthy txt) then blocks
  else attach_to_first (to_px_flipped page_h_pt scale (span_bbox sp)) txt blocks.

(** The spans in the order the three nested loops visit them. *)
Definition spans_of (d : TextDict) : list Span := List.concat (List.concat d).

(** [_attach_text] updates the dicts of [blocks] in place; the model returns
    the updated list. *)
Definition _attach_text (blocks : list Block) (page : Page) (scale : Q)
    : list Block :=
  let page_h_pt := rect_height page in
  fold_left (attach_span page_h_pt scale) (spans_of (text_dict page)) blocks.

(** The output of [_rect_to_image_xy] as a rectangle: the span rectangle
    "mapped to pixel space via CoordinateMapper" of the spec. *)
Definition mapped_rect (page_h_pt scale : Q) (rect_pt : FitzRect) : Rectangle :=
  let '(x1', y1', x2', y2') := _rect_to_image_xy rect_pt page_h_pt scale in
  mkRectangle x1' y1' x2' y2'.

(** ** Concrete inputs used by the examples below *)

Definition box (a b c d : Z) (lbl : string) (s : Q) : TextBlock :=
  mkTextBlock (mkRectangle (inject_Z a) (inject_Z b) (inject_Z c) (inject_Z d)) lbl s.

(** Two separate columns. *)
Definition left_col : TextBlock := box 0 0 10 10 "text" (9 # 10).
Definition right_col : TextBlock := box 20 0 30 10 "text" (8 # 10).

(** A low-scoring box that covers the left column only. *)
Definition wide_left : TextBlock := box 0 0 12 10 "figure" (3 # 10).

(** The spec's containment example. *)
Definition outer_A : TextBlock := box 0 0 100 100 "text" (9 # 10).
Definition inner_B : TextBlock := box 10 10 50 50 "text" (3 # 10).

(** A page 100 points high with one span in its top-left corner, and a
    region in the bottom-left corner of the image. *)
Definition corner_span : Span :=
  mkSpan (Some " a "%string) (mkFitzRect 0 0 (inject_Z 10) (inject_Z 10)).
Definition one_span_page : Page := mkPage (inject_Z 100) [[[corner_span]]].
Definition bottom_region : Block :=
  mkBlock "" (mkRectangle 0 (inject_Z 85) (inject_Z 10) (inject_Z 95)) "text".
Definition top_region : Block :=
  mkBlock "" (mkRectangle 0 0 (inject_Z 10) (inject_Z 10)) "text".

(** The spec's area-ascending split. *)
Definition half_A : TextBlock := box 0 0 100 50 "text" (9 # 10).
Definition full_B : TextBlock := box 0 0 100 100 "table" (5 # 10).


(** ** The remaining pure functions of the module *)

Definition _filter_layout_by_score (layout : Layout) (score_threshold : Q) : Layout :=
  filter (fun b => Py.ge (score b) score_threshold) layout.

(** [config.model_config.DEFAULT_DPI] *)
Definition DEFAULT_DPI : Q := inject_Z 300.

(** Every block meets none of the blocks before it in the list. *)
Definition pairwise_disjoint (l : Layout) : Prop := StronglySorted apart l.

(** [analyze_page_hierarchical], its second result.  Rendering the page,
    running the detector and drawing the boxes are external; [raw_layout]
    is what [_detect_on_image] returned. *)
Definition analyze_page_hierarchical (self : Self) (raw_layout : Layout)
    (min_score const_tresh iou_thresh : Q) (tol : Z) : result Layout :=
  _hierarchical_filter self raw_layout min_score const_tresh iou_thresh tol.

(** The list comprehension-like loop of [analyze_page_with_resolved_text]
    that turns the resolved layout into dicts with an empty text. *)
Definition blocks_of_layout (resolved_layout : Layout) : list Block :=
  map (fun lb => mkBlock "" (block lb) (type lb)) resolved_layout.

Section Pipeline.

(** layoutparser's [area], as for [_resolve_overlaps]. *)
Variable area : TextBlock -> Q.

(** [analyze_page_with_resolved_text], with the detector's output and the
    opened page as arguments. *)
Definition analyze_page_with_resolved_text (self : Self) (raw_layout : Layout)
    (page : Page) (min_score const_tresh iou_thresh : Q) (tol : Z)
    : result (list Block) :=
  raw_layout' <- analyze_page_hierarchical self raw_layout min_score
                   const_tresh iou_thresh tol ;;
  let resolved_layout := _resolve_overlaps area raw_layout' in
  let blocks := blocks_of_layout resolved_layout in
  let scale := DEFAULT_DPI / inject_Z 72 in
  Ok (_attach_text blocks page scale).

End Pipeline.

(** A block [o] after text attachment and the block [b] it was before:
    same rectangle, same label, and a text that starts with the old one. *)
Definition extends (b o : Block) : Prop :=
  bbox_px o = bbox_px b /\ btype o = btype b
  /\ String.prefix (text b) (text o) = true.

(** [r] lies within [o]. *)
Definition rect_inside (r o : Rectangle) : Prop :=
  x_1 o <= x_1 r /\ x_2 r <= x_2 o /\ y_1 o <= y_1 r /\ y_2 r <= y_2 o.
(* ================================================================== *)
(** * Part II: lemmas and theorems *)
(* ================================================================== *)

(** ** Comparisons, [max] and [min] *)

Lemma lt_spec (x y : Q) : Py.lt x y = true <-> x < y.
Proof.
  unfold Py.lt. rewrite negb_true_iff, <- not_true_iff_false, Qle_bool_iff.
  split; intro H; lra.
Qed.

Lemma lt_false (x y : Q) : Py.lt x y = false <-> y <= x.
Proof.
  unfold Py.lt. rewrite negb_false_iff. apply Qle_bool_iff.
Qed.

Lemma le_spec (x y : Q) : Py.le x y = true <-> x <= y.
Proof. apply Qle_bool_iff. Qed.

Lemma le_false (x y : Q) : Py.le x y = false <-> y < x.
Proof.
  unfold Py.le. rewrite <- not_true_iff_false, Qle_bool_iff. split; intro H; lra.
Qed.

Lemma ge_spec (x y : Q) : Py.ge x y = true <-> y <= x.
Proof. apply Qle_bool_iff. Qed.

Lemma ge_false (x y : Q) : Py.ge x y = false <-> x < y.
Proof. unfold Py.ge. apply (le_false y x). Qed.

Lemma gt_spec (x y : Q) : Py.gt x y = true <-> y < x.
Proof. apply lt_spec. Qed.

Lemma gt_false (x y : Q) : Py.gt x y = false <-> x <= y.
Proof. apply lt_false. Qed.

Lemma max_cases (a b : Q) :
  (a < b /\ Py.max a b = b) \/ (b <= a /\ Py.max a b = a).
Proof.
  unfold Py.max. destruct (Py.gt b a) eqn:E.
  - left. apply gt_spec in E. auto.
  - right. apply gt_false in E. auto.
Qed.

Lemma min_cases (a b : Q) :
  (b < a /\ Py.min a b = b) \/ (a <= b /\ Py.min a b = a).
Proof.
  unfold Py.min. destruct (Py.lt b a) eqn:E.
  - left. apply lt_spec in E. auto.
  - right. apply lt_false in E. auto.
Qed.

(** Replace every [Py.max]/[Py.min] of the goal by its value, remembering the
    order fact that selected it. *)
Ltac split_minmax :=
  repeat match goal with
  | |- context [Py.max ?a ?b] =>
      let H := fresh "Hmax" in let E := fresh "Emax" in
      destruct (max_cases a b) as [[H E] | [H E]]; rewrite E in *; clear E
  | |- context [Py.min ?a ?b] =>
      let H := fresh "Hmin" in let E := fresh "Emin" in
      destruct (min_cases a b) as [[H E] | [H E]]; rewrite E in *; clear E
  end.

(** Turn boolean comparisons in the context into order facts. *)
Ltac reflect_cmp :=
  repeat match goal with
  | H : _ && _ = true |- _ => apply andb_true_iff in H; destruct H
  | H : _ || _ = false |- _ => apply orb_false_iff in H; destruct H
  | H : negb _ = true |- _ => apply negb_true_iff in H
  | H : negb _ = false |- _ => apply negb_false_iff in H
  | H : Py.lt _ _ = true |- _ => apply lt_spec in H
  | H : Py.lt _ _ = false |- _ => apply lt_false in H
  | H : Py.gt _ _ = true |- _ => apply gt_spec in H
  | H : Py.gt _ _ = false |- _ => apply gt_false in H
  | H : Py.le _ _ = true |- _ => apply le_spec in H
  | H : Py.le _ _ = false |- _ => apply le_false in H
  | H : Py.ge _ _ = true |- _ => apply ge_spec in H
  | H : Py.ge _ _ = false |- _ => apply ge_false in H
  end.

Lemma max0_nonneg (a : Q) : 0 <= Py.max 0 a.
Proof. destruct (max_cases 0 a) as [[H E] | [H E]]; rewrite E; lra. Qed.

Lemma max0_mono (a b : Q) : a <= b -> Py.max 0 a <= Py.max 0 b.
Proof. intros H. split_minmax; lra. Qed.

Lemma truediv_ok (n d : Q) : 0 < d -> Py.truediv n d = Ok (n / d).
Proof.
  intros H. unfold Py.truediv.
  destruct (Qeq_bool d 0) eqn:E; [| reflexivity].
  apply Qeq_bool_iff in E. lra.
Qed.

(** ** RegionGeometry *)

Lemma box_area_unfold (b : TextBlock) :
  _box_area b = Py.max 0 (x_2 (block b) - x_1 (block b))
                * Py.max 0 (y_2 (block b) - y_1 (block b)).
Proof. reflexivity. Qed.

Lemma box_area_nonneg (b : TextBlock) : 0 <= _box_area b.
Proof.
  rewrite box_area_unfold. apply Qmult_le_0_compat; apply max0_nonneg.
Qed.

Lemma intersectionArea_nonneg (r1 r2 : Rectangle) : 0 <= intersectionArea r1 r2.
Proof. apply Qmult_le_0_compat; apply max0_nonneg. Qed.

Lemma Qmult_le_compat_nonneg (a b c d : Q) :
  0 <= a -> a <= b -> 0 <= c -> c <= d -> a * c <= b * d.
Proof. intros. nra. Qed.

Lemma intersectionArea_le_l (b1 b2 : TextBlock) :
  intersectionArea (block b1) (block b2) <= _box_area b1.
Proof.
  rewrite box_area_unfold. unfold intersectionArea.
  apply Qmult_le_compat_nonneg; try apply max0_nonneg;
    apply max0_mono; split_minmax; lra.
Qed.

Lemma intersectionArea_le_r (b1 b2 : TextBlock) :
  intersectionArea (block b1) (block b2) <= _box_area b2.
Proof.
  rewrite box_area_unfold. unfold intersectionArea.
  apply Qmult_le_compat_nonneg; try apply max0_nonneg;
    apply max0_mono; split_minmax; lra.
Qed.

Lemma iou_unfold (el1 el2 : TextBlock) :
  _iou el1 el2 =
  let inter := intersectionArea (block el1) (block el2) in
  let union := _box_area el1 + _box_area el2 - inter in
  if Py.gt union 0 then Py.truediv inter union else Ok 0.
Proof. reflexivity. Qed.

Lemma containment_ratio_unfold (inner outer : TextBlock) :
  _containment_ratio inner outer =
  let inter := intersectionArea (block inner) (block outer) in
  if Py.gt (_box_area inner) 0 then Py.truediv inter (_box_area inner) else Ok 0.
Proof. reflexivity. Qed.

Lemma iou_total (el1 el2 : TextBlock) : _iou el1 el2 = Ok (iou_value el1 el2).
Proof.
  rewrite iou_unfold. unfold iou_value. cbv zeta.
  destruct (Py.gt _ 0) eqn:E; [| reflexivity].
  apply truediv_ok. now apply gt_spec in E.
Qed.

Lemma containment_ratio_total (inner outer : TextBlock) :
  _containment_ratio inner outer = Ok (containment_value inner outer).
Proof.
  rewrite containment_ratio_unfold. unfold containment_value. cbv zeta.
  destruct (Py.gt _ 0) eqn:E; [| reflexivity].
  apply truediv_ok. now apply gt_spec in E.
Qed.

(** C9. [_iou] and [_containment_ratio] are total and their divisions are
    guarded.  For every pair of boxes, with [inter] the intersection area
    and [union = area(el1) + area(el2) - inter]: the union area is never
    negative; [_iou] returns [inter / union] when the union area is
    positive and 0 when it is 0; [_containment_ratio(el1, el2)] returns
    [inter / area(el1)] when that area is positive and 0 when it is 0 (an
    area is never negative); neither call raises. *)
Theorem C9_iou_containment_guarded (el1 el2 : TextBlock) :
  let inter := intersectionArea (block el1) (block el2) in
  let union := _box_area el1 + _box_area el2 - inter in
  (0 <= union
   /\ (0 < union -> _iou el1 el2 = Ok (inter / union))
   /\ (union == 0 -> _iou el1 el2 = Ok 0))
  /\ (0 <= _box_area el1
      /\ (0 < _box_area el1 ->
          _containment_ratio el1 el2 = Ok (inter / _box_area el1))
      /\ (_box_area el1 == 0 -> _containment_ratio el1 el2 = Ok 0))
  /\ (forall e, _iou el1 el2 <> Raise e)
  /\ (forall e, _containment_ratio el1 el2 <> Raise e).
Proof.
  cbv zeta.
  pose proof (intersectionArea_le_r el1 el2) as Hr.
  pose proof (box_area_nonneg el1) as Ha.
  repeat split.
  - lra.
  - intros H. rewrite iou_unfold. cbv zeta.
    apply gt_spec in H. rewrite H. apply truediv_ok. now apply gt_spec.
  - intros H. rewrite iou_unfold. cbv zeta.
    assert (E : Py.gt (_box_area el1 + _box_area el2
                       - intersectionArea (block el1) (block el2)) 0 = false)
      by (apply gt_false; lra).
    now rewrite E.
  - exact Ha.
  - intros H. rewrite containment_ratio_unfold. cbv zeta.
    pose proof H as H'. apply gt_spec in H'. rewrite H'. now apply truediv_ok.
  - intros H. rewrite containment_ratio_unfold. cbv zeta.
    assert (E : Py.gt (_box_area el1) 0 = false) by (apply gt_false; lra).
    now rewrite E.
  - intros e. rewrite iou_total. discriminate.
  - intros e. rewrite containment_ratio_total. discriminate.
Qed.

(** ** CoordinateMapper *)

(** C6. [_rect_to_image_xy] returns exactly the left and right edges
    scaled, and the two vertical edges measured from the page height and
    scaled, in exchanged order.  The rectangle's corners are named as fitz
    names them, [(x0, y0)] and [(x1, y1)]: the spec's [x1], [x2] are the left
    and right edge, here [x0] and [x1]; its [y0], [y1] are the fields of the
    same names. *)
Theorem C6_rect_to_image_xy_exact (rect : FitzRect) (page_height_pt scale : Q) :
  _rect_to_image_xy rect page_height_pt scale =
  (x0 rect * scale,
   (page_height_pt - y1 rect) * scale,
   x1 rect * scale,
   (page_height_pt - y0 rect) * scale).
Proof. reflexivity. Qed.

(** The flip: on a normalised rectangle and a non-negative scale the image
    is normalised again, the page's upper edge [y1] becoming the smaller
    pixel ordinate. *)
Lemma rect_to_image_xy_flips (rect : FitzRect) (h scale : Q) :
  0 <= scale -> x0 rect <= x1 rect -> y0 rect <= y1 rect ->
  let '(px1, py1, px2, py2) := _rect_to_image_xy rect h scale in
  px1 <= px2 /\ py1 <= py2.
Proof. intros Hs Hx Hy. unfold _rect_to_image_xy. split; nra. Qed.

(** ** Python's [sorted] *)

Section SortedFacts.
Context {A K : Type} (key_lt : K -> K -> bool) (key : A -> K).

Abbreviation in_order := (Py.in_order key_lt key).

Lemma insert_perm (x : A) (l : list A) :
  Permutation (Py.insert key_lt key x l) (x :: l).
Proof.
  induction l as [| y ys IH]; simpl; [reflexivity |].
  destruct (key_lt (key y) (key x)); [| reflexivity].
  rewrite IH. apply perm_swap.
Qed.

Lemma sorted_perm (l : list A) : Permutation (Py.sorted key_lt key l) l.
Proof.
  induction l as [| x l IH]; simpl; [reflexivity |].
  rewrite insert_perm. now constructor.
Qed.

Lemma sorted_in (l : list A) (x : A) : In x (Py.sorted key_lt key l) <-> In x l.
Proof.
  split; apply Permutation_in; [| symmetry]; apply sorted_perm.
Qed.

Lemma insert_head (x : A) (l : list A) :
  Forall (in_order x) l -> Py.insert key_lt key x l = x :: l.
Proof.
  intros H. destruct l as [| y ys]; [reflexivity |].
  simpl. inversion H as [| ? ? Hy _]; subst.
  unfold Py.in_order in Hy. now rewrite Hy.
Qed.

(** Sorting a list that is already in order returns it unchanged. *)
Lemma sorted_id (l : list A) :
  StronglySorted in_order l -> Py.sorted key_lt key l = l.
Proof.
  induction 1 as [| x l Hs IH Hx]; [reflexivity |].
  simpl. rewrite IH. now apply insert_head.
Qed.

Hypothesis key_lt_asym : forall a b, key_lt a b = true -> key_lt b a = false.
Hypothesis key_ge_trans :
  forall a b c, key_lt b a = false -> key_lt c b = false -> key_lt c a = false.

Lemma insert_sorted (x : A) (l : list A) :
  StronglySorted in_order l -> StronglySorted in_order (Py.insert key_lt key x l).
Proof.
  induction 1 as [| y ys Hs IH Hy]; simpl.
  - repeat constructor.
  - destruct (key_lt (key y) (key x)) eqn:E.
    + constructor; [exact IH |].
      apply Permutation_Forall with (x :: ys).
      * symmetry. apply insert_perm.
      * constructor; [| exact Hy]. unfold Py.in_order. now apply key_lt_asym.
    + constructor; [now constructor |].
      constructor; [exact E |].
      eapply Forall_impl; [| exact Hy].
      intros z Hz. unfold Py.in_order in *. eapply key_ge_trans; eassumption.
Qed.

Lemma sorted_sorted (l : list A) : StronglySorted in_order (Py.sorted key_lt key l).
Proof.
  induction l as [| x l IH]; simpl; [constructor |]. now apply insert_sorted.
Qed.

(** Stability: the sort commutes with every filter. *)
Lemma filter_insert (p : A -> bool) (x : A) (l : list A) :
  StronglySorted in_order l ->
  filter p (Py.insert key_lt key x l) =
  if p x then Py.insert key_lt key x (filter p l) else filter p l.
Proof.
  induction 1 as [| y ys Hs IH Hy]; simpl.
  - now destruct (p x).
  - destruct (key_lt (key y) (key x)) eqn:E; simpl.
    + rewrite IH. destruct (p x), (p y); simpl; try rewrite E; reflexivity.
    + destruct (p x) eqn:Px; [| reflexivity].
      destruct (p y) eqn:Py; simpl; [now rewrite E |].
      symmetry. apply insert_head.
      apply Forall_forall. intros z Hz. apply filter_In in Hz as [Hz _].
      rewrite Forall_forall in Hy. specialize (Hy z Hz).
      unfold Py.in_order in *. eapply key_ge_trans; eassumption.
Qed.

Lemma filter_sorted (p : A -> bool) (l : list A) :
  filter p (Py.sorted key_lt key l) = Py.sorted key_lt key (filter p l).
Proof.
  induction l as [| x l IH]; [reflexivity |].
  simpl. rewrite filter_insert by apply sorted_sorted.
  rewrite IH. now destruct (p x).
Qed.

End SortedFacts.

(** ** The processing order of the suppressor *)

Lemma tuple_lt_false (a b : Q * Q) :
  Py.tuple_lt a b = false <->
  fst b < fst a \/ (fst a == fst b /\ snd b <= snd a).
Proof.
  unfold Py.tuple_lt.
  destruct (Qeq_bool (fst a) (fst b)) eqn:E.
  - apply Qeq_bool_iff in E. rewrite lt_false. split; [auto | intros [H | [_ H]]; lra].
  - apply Qeq_bool_neq in E. rewrite lt_false. split.
    + intros H. left. destruct (Qlt_le_dec (fst b) (fst a)) as [L | L]; [exact L |].
      exfalso. apply E. lra.
    + intros [H | [H _]]; [lra | contradiction].
Qed.

Lemma tuple_lt_true (a b : Q * Q) :
  Py.tuple_lt a b = true <->
  fst a < fst b \/ (fst a == fst b /\ snd a < snd b).
Proof.
  unfold Py.tuple_lt.
  destruct (Qeq_bool (fst a) (fst b)) eqn:E.
  - apply Qeq_bool_iff in E. rewrite lt_spec. split; [auto | intros [H | [_ H]]; lra].
  - apply Qeq_bool_neq in E. rewrite lt_spec. split.
    + auto.
    + intros [H | [H _]]; [lra | contradiction].
Qed.

Lemma tuple_lt_asym (a b : Q * Q) :
  Py.tuple_lt a b = true -> Py.tuple_lt b a = false.
Proof.
  rewrite tuple_lt_true, tuple_lt_false.
  intros [H | [H H']]; [left | right; split]; lra.
Qed.

Lemma tuple_ge_trans (a b c : Q * Q) :
  Py.tuple_lt b a = false -> Py.tuple_lt c b = false -> Py.tuple_lt c a = false.
Proof.
  rewrite !tuple_lt_false. intros [H1 | [H1 H1']] [H2 | [H2 H2']].
  - left. lra.
  - left. lra.
  - left. lra.
  - right. split; lra.
Qed.

Lemma in_order_precedes (a b : TextBlock) :
  Py.in_order Py.tuple_lt score_area_key a b <-> precedes a b.
Proof.
  unfold Py.in_order, precedes. rewrite tuple_lt_false. simpl.
  split; intros [H | [H H']]; [left | right; split | left | right; split]; lra.
Qed.

Lemma StronglySorted_impl {A : Type} (R S : A -> A -> Prop) (l : list A) :
  (forall a b, R a b -> S a b) -> StronglySorted R l -> StronglySorted S l.
Proof.
  intros HRS. induction 1 as [| x l Hs IH Hx]; constructor; [exact IH |].
  eapply Forall_impl; [| exact Hx]. intros b. apply HRS.
Qed.

Lemma candidates_sorted (layout : Layout) (min_score : Q) :
  StronglySorted precedes (filter_candidates layout min_score).
Proof.
  eapply StronglySorted_impl; [intros a b; apply in_order_precedes |].
  apply sorted_sorted; [apply tuple_lt_asym | apply tuple_ge_trans].
Qed.

Lemma candidates_perm (layout : Layout) (min_score : Q) :
  Permutation (filter_candidates layout min_score)
              (filter (fun b => Py.ge (score b) min_score) layout).
Proof. apply sorted_perm. Qed.

Lemma candidates_in (layout : Layout) (min_score : Q) (b : TextBlock) :
  In b (filter_candidates layout min_score) <-> In b layout /\ min_score <= score b.
Proof.
  unfold filter_candidates, _sorted_by_score_then_area.
  rewrite sorted_in, filter_In, ge_spec. reflexivity.
Qed.

(** ** The suppression test *)

Lemma suppress_with_rules_total (selected : Layout) (c : TextBlock)
    (ct it : Q) (tol : Z) :
  _suppress_with_rules selected c ct it tol
  = Ok (existsb (suppress_pair ct it tol c) selected).
Proof.
  induction selected as [| s rest IH]; [reflexivity |].
  simpl. unfold suppress_pair at 1.
  rewrite containment_ratio_total, iou_total. simpl.
  destruct (_contains s c tol); [reflexivity |].
  destruct (Py.ge (containment_value c s) ct); [reflexivity |].
  destruct (Py.ge (iou_value c s) it); [reflexivity |].
  exact IH.
Qed.

Lemma suppress_pair_redundant (ct it : Q) (tol : Z) (c s : TextBlock) :
  suppress_pair ct it tol c s = true <-> redundant_with ct it tol s c.
Proof.
  unfold suppress_pair, redundant_with.
  rewrite !orb_true_iff, !ge_spec, containment_ratio_total, iou_total.
  split.
  - intros [[H | H] | H]; [left; exact H | right; left | right; right]; eauto.
  - intros [H | [[r [E H]] | [i [E H]]]].
    + auto.
    + injection E as <-. auto.
    + injection E as <-. auto.
Qed.

Lemma suppressed_iff (selected : Layout) (c : TextBlock) (ct it : Q) (tol : Z) :
  existsb (suppress_pair ct it tol c) selected = true
  <-> exists s, In s selected /\ redundant_with ct it tol s c.
Proof.
  rewrite existsb_exists. split; intros [s [Hin H]]; exists s; split; auto;
    now apply suppress_pair_redundant.
Qed.

(** C5. Candidates are processed in the order of the key
    [(-score, -area)]: higher score first and, at equal score, larger area
    first; the processed list is a rearrangement of the candidates that
    pass the score filter.  A candidate [c] met with accumulator [selected]
    is discarded exactly when some selected [s] has [contains(s, c, tol)],
    or [containmentRatio(c, s) >= containmentThreshold], or [iou(c, s) >=
    iouThreshold]: the test returns [True] exactly then (each disjunct
    alone suffices), the loop body then leaves [selected] as it is, and
    otherwise goes on to the eviction and the append. *)
Theorem C5_discard_iff_some_selected_covers
    (self : Self) (layout : Layout) (min_score ct it : Q) (tol : Z)
    (selected : Layout) (c : TextBlock) :
  (StronglySorted precedes (filter_candidates layout min_score)
   /\ Permutation (filter_candidates layout min_score)
                  (filter (fun b => Py.ge (score b) min_score) layout))
  /\ (_suppress_with_rules selected c ct it tol = Ok true
      <-> exists s, In s selected /\ redundant_with ct it tol s c)
  /\ (_suppress_with_rules selected c ct it tol = Ok false
      <-> ~ exists s, In s selected /\ redundant_with ct it tol s c)
  /\ ((exists s, In s selected /\ redundant_with ct it tol s c) ->
      filter_step self ct it tol selected c = Ok selected)
  /\ (~ (exists s, In s selected /\ redundant_with ct it tol s c) ->
      filter_step self ct it tol selected c
      = (kept <- _remove_superseded self selected c ct it tol ;; Ok (kept ++ [c]))).
Proof.
  split; [split; [apply candidates_sorted | apply candidates_perm] |].
  unfold filter_step. rewrite suppress_with_rules_total.
  pose proof (suppressed_iff selected c ct it tol) as Hiff.
  destruct (existsb (suppress_pair ct it tol c) selected) eqn:E.
  - assert (Hex : exists s, In s selected /\ redundant_with ct it tol s c)
      by now apply Hiff.
    repeat split; auto; try discriminate; intros H; now exfalso.
  - assert (Hno : ~ exists s, In s selected /\ redundant_with ct it tol s c).
    { intros Hex. apply Hiff in Hex. discriminate. }
    repeat split; auto; try discriminate; intros H; now exfalso.
Qed.

(** ** Sub-sequences *)

Section Subseq.
Context {A : Type}.
Implicit Types l k : list A.

Lemma subseq_refl l : subseq l l.
Proof. induction l; [apply subseq_nil | now apply subseq_keep]. Qed.

Lemma subseq_nil_l l : subseq [] l.
Proof. induction l; [apply subseq_nil | now apply subseq_skip]. Qed.

Lemma subseq_trans l k m : subseq l k -> subseq k m -> subseq l m.
Proof.
  intros H1 H2. revert l H1.
  induction H2 as [| x k m H2 IH | x k m H2 IH]; intros l H1.
  - exact H1.
  - apply subseq_skip. auto.
  - inversion H1; subst.
    + apply subseq_skip. auto.
    + apply subseq_keep. auto.
Qed.

Lemma subseq_app l l' k k' : subseq l k -> subseq l' k' -> subseq (l ++ l') (k ++ k').
Proof.
  induction 1; intros H'; simpl;
    [exact H' | apply subseq_skip | apply subseq_keep]; auto.
Qed.

Lemma subseq_filter (p : A -> bool) l : subseq (filter p l) l.
Proof.
  induction l as [| x l IH]; simpl; [apply subseq_nil |].
  destruct (p x); [apply subseq_keep | apply subseq_skip]; exact IH.
Qed.

Lemma subseq_In l k (x : A) : subseq l k -> In x l -> In x k.
Proof.
  induction 1; simpl; intros Hin; auto.
  destruct Hin; auto.
Qed.

Lemma subseq_Forall (P : A -> Prop) l k : subseq l k -> Forall P k -> Forall P l.
Proof.
  intros Hs Hk. apply Forall_forall. intros x Hx.
  rewrite Forall_forall in Hk. apply Hk. eapply subseq_In; eassumption.
Qed.

Lemma subseq_sorted (R : A -> A -> Prop) l k :
  subseq l k -> StronglySorted R k -> StronglySorted R l.
Proof.
  induction 1 as [| x l k Hs IH | x l k Hs IH]; intros Hk.
  - constructor.
  - inversion Hk; subst. auto.
  - inversion Hk; subst. constructor; [auto |].
    eapply subseq_Forall; eassumption.
Qed.

Lemma subseq_filter_length (p : A -> bool) l k :
  subseq l k -> (List.length (filter p l) <= List.length (filter p k))%nat.
Proof.
  induction 1 as [| x l k Hs IH | x l k Hs IH]; simpl; auto.
  - destruct (p x); simpl; lia.
  - destruct (p x); simpl; lia.
Qed.



End Subseq.

(** ** Eviction *)

Section Eviction.
Variable self : Self.
Variables ct it : Q.
Variable tol : Z.

Lemma remove_superseded_Some (conflict : conflict_method) (selected : Layout)
    (keeper : TextBlock) :
  attr__conflict self = Some conflict ->
  _remove_superseded self selected keeper ct it tol
  = Ok (filter (fun sel => negb (conflict keeper sel ct it tol)) selected).
Proof.
  intros E. induction selected as [| s rest IH]; [reflexivity |].
  simpl. rewrite E, IH. simpl. now destruct (conflict keeper s ct it tol).
Qed.

Lemma remove_superseded_None (selected : Layout) (keeper : TextBlock) :
  attr__conflict self = None ->
  _remove_superseded self selected keeper ct it tol
  = match selected with
    | [] => Ok []
    | _ :: _ => Raise (AttributeError "_conflict")
    end.
Proof. intros E. destruct selected; simpl; [| rewrite E]; reflexivity. Qed.

(** Whenever the eviction returns, it returns the undisturbed elements. *)
Lemma remove_superseded_Ok (selected kept : Layout) (keeper : TextBlock) :
  _remove_superseded self selected keeper ct it tol = Ok kept ->
  kept = filter (fun sel => negb (disturbs self ct it tol keeper sel)) selected.
Proof.
  unfold disturbs. destruct (attr__conflict self) as [f |] eqn:E.
  - rewrite (remove_superseded_Some f) by exact E. now intros [= <-].
  - rewrite remove_superseded_None by exact E.
    destruct selected; [now intros [= <-] | discriminate].
Qed.

Lemma remove_superseded_undisturbed (selected : Layout) (keeper : TextBlock) :
  Forall (fun sel => disturbs self ct it tol keeper sel = false) selected ->
  _remove_superseded self selected keeper ct it tol = Ok selected.
Proof.
  unfold disturbs. destruct (attr__conflict self) as [f |] eqn:E; intros H.
  - rewrite (remove_superseded_Some f) by exact E.
    induction H as [| s rest Hs _ IH]; [reflexivity |].
    simpl. rewrite Hs. simpl. injection IH as IH. now rewrite IH.
  - destruct selected as [| s rest]; [reflexivity |].
    inversion H; discriminate.
Qed.

(** The three ways the loop body can return. *)
Lemma filter_step_Ok (selected selected' : Layout) (box : TextBlock) :
  filter_step self ct it tol selected box = Ok selected' ->
  (existsb (suppress_pair ct it tol box) selected = true /\ selected' = selected)
  \/ (existsb (suppress_pair ct it tol box) selected = false
      /\ selected' = filter (fun sel => negb (disturbs self ct it tol box sel))
                            selected ++ [box]).
Proof.
  unfold filter_step. rewrite suppress_with_rules_total. simpl.
  destruct (existsb _ selected) eqn:E.
  - intros [= <-]. auto.
  - destruct (_remove_superseded self selected box ct it tol) as [kept | e] eqn:R;
      simpl; [| discriminate].
    intros [= <-]. right. split; [reflexivity |].
    f_equal. now apply remove_superseded_Ok.
Qed.


(** The accumulator is always a sub-sequence of what has been processed. *)
Lemma filter_step_subseq (selected selected' : Layout) (box : TextBlock) :
  filter_step self ct it tol selected box = Ok selected' ->
  subseq selected' (selected ++ [box]).
Proof.
  intros H. apply filter_step_Ok in H as [[_ ->] | [_ ->]].
  - rewrite <- (app_nil_r selected) at 1.
    apply subseq_app; [apply subseq_refl | apply subseq_nil_l].
  - apply subseq_app; [apply subseq_filter | apply subseq_refl].
Qed.

Lemma filter_loop_subseq (candidates : list TextBlock) (selected final : Layout) :
  filter_loop self ct it tol selected candidates = Ok final ->
  subseq final (selected ++ candidates).
Proof.
  revert selected. induction candidates as [| c rest IH]; intros selected; simpl.
  - intros [= <-]. rewrite app_nil_r. apply subseq_refl.
  - destruct (filter_step self ct it tol selected c) as [mid |] eqn:S;
      simpl; [| discriminate].
    intros H. apply IH in H. apply filter_step_subseq in S.
    eapply subseq_trans; [exact H |].
    replace (selected ++ c :: rest) with ((selected ++ [c]) ++ rest)
      by (now rewrite <- app_assoc).
    apply subseq_app; [exact S | apply subseq_refl].
Qed.

End Eviction.

(** ** Re-running the suppressor on its own output *)

Lemma sorted_snoc {A : Type} (R : A -> A -> Prop) (l : list A) (c : A) :
  StronglySorted R l -> Forall (fun s => R s c) l -> StronglySorted R (l ++ [c]).
Proof.
  induction 1 as [| x l Hs IH Hx]; intros Hc; simpl.
  - repeat constructor.
  - inversion Hc; subst. constructor; [auto |].
    apply Forall_app. split; [exact Hx | now constructor].
Qed.

Lemma sorted_app_before {A : Type} (R : A -> A -> Prop) (pre suf : list A) (t : A) :
  StronglySorted R (pre ++ t :: suf) -> Forall (fun s => R s t) pre.
Proof.
  induction pre as [| x pre IH]; simpl; intros H; [constructor |].
  inversion H as [| ? ? Hs Hx]; subst. constructor; [| auto].
  rewrite Forall_forall in Hx. apply Hx. apply in_elt.
Qed.

Lemma filter_all {A : Type} (p : A -> bool) (l : list A) :
  Forall (fun x => p x = true) l -> filter p l = l.
Proof.
  induction 1 as [| x l Hx _ IH]; [reflexivity |]. simpl. now rewrite Hx, IH.
Qed.

Lemma existsb_false_Forall {A : Type} (p : A -> bool) (l : list A) :
  existsb p l = false <-> Forall (fun x => p x = false) l.
Proof.
  induction l as [| x l IH]; simpl.
  - split; [constructor | reflexivity].
  - rewrite orb_false_iff, IH. split.
    + intros [H1 H2]. now constructor.
    + intros H. inversion H; subst. auto.
Qed.

Section Rerun.
Variable self : Self.
Variables ct it : Q.
Variable tol : Z.

Abbreviation settled := (StronglySorted (compatible self ct it tol)).

(** Every pair the accumulator holds is compatible, at every step. *)
Lemma filter_step_settled (selected selected' : Layout) (box : TextBlock) :
  settled selected ->
  filter_step self ct it tol selected box = Ok selected' ->
  settled selected'.
Proof.
  intros Hs H. apply filter_step_Ok in H as [[_ ->] | [E ->]]; [exact Hs |].
  apply sorted_snoc.
  - eapply subseq_sorted; [apply subseq_filter | exact Hs].
  - apply Forall_forall. intros s Hin. apply filter_In in Hin as [Hin Hd].
    apply existsb_false_Forall in E. rewrite Forall_forall in E.
    split; [now apply E | now apply negb_true_iff in Hd].
Qed.

Lemma filter_loop_settled (candidates : list TextBlock) (selected final : Layout) :
  settled selected ->
  filter_loop self ct it tol selected candidates = Ok final ->
  settled final.
Proof.
  revert selected. induction candidates as [| c rest IH]; intros selected Hs; simpl.
  - now intros [= <-].
  - destruct (filter_step self ct it tol selected c) as [mid |] eqn:S;
      simpl; [| discriminate].
    apply IH. eapply filter_step_settled; eassumption.
Qed.

(** On a settled list the loop accepts every element and evicts none. *)
Lemma filter_loop_rerun (suf pre : Layout) :
  settled (pre ++ suf) ->
  filter_loop self ct it tol pre suf = Ok (pre ++ suf).
Proof.
  revert pre. induction suf as [| t suf IH]; intros pre Hs; simpl.
  - now rewrite app_nil_r.
  - pose proof (sorted_app_before _ _ _ _ Hs) as Hpre.
    assert (Hstep : filter_step self ct it tol pre t = Ok (pre ++ [t])).
    { unfold filter_step. rewrite suppress_with_rules_total. simpl.
      assert (E : existsb (suppress_pair ct it tol t) pre = false).
      { apply existsb_false_Forall. eapply Forall_impl; [| exact Hpre].
        intros s [H _]. exact H. }
      rewrite E. rewrite remove_superseded_undisturbed; [reflexivity |].
      eapply Forall_impl; [| exact Hpre]. intros s [_ H]. exact H. }
    rewrite Hstep. simpl.
    replace (pre ++ t :: suf) with ((pre ++ [t]) ++ suf)
      by (now rewrite <- app_assoc).
    apply IH. now rewrite <- app_assoc.
Qed.

End Rerun.

(** C4. Idempotence: whenever [_hierarchical_filter] returns a layout,
    applying it to that layout with the same [min_score], thresholds and
    [tol] returns the identical sequence of regions.  This holds for the
    class as written and for any [_conflict] method it might be given. *)
Theorem C4_hierarchical_filter_idempotent
    (self : Self) (layout : Layout) (min_score ct it : Q) (tol : Z)
    (selected : Layout) :
  _hierarchical_filter self layout min_score ct it tol = Ok selected ->
  _hierarchical_filter self selected min_score ct it tol = Ok selected.
Proof.
  unfold _hierarchical_filter. intros H.
  pose proof (filter_loop_subseq _ _ _ _ _ _ _ H) as Hsub. simpl in Hsub.
  assert (Hkeep : filter (fun b => Py.ge (score b) min_score) selected = selected).
  { apply filter_all. apply Forall_forall. intros b Hb.
    apply ge_spec. eapply subseq_In in Hb; [| exact Hsub].
    now apply candidates_in in Hb. }
  assert (Hsort : filter_candidates selected min_score = selected).
  { unfold filter_candidates. rewrite Hkeep. apply sorted_id.
    eapply subseq_sorted; [exact Hsub |].
    apply sorted_sorted; [apply tuple_lt_asym | apply tuple_ge_trans]. }
  rewrite Hsort.
  apply (filter_loop_rerun self ct it tol selected []). simpl.
  eapply filter_loop_settled; [| exact H]. constructor.
Qed.

(** With a [_conflict] method in place the filter returns on every input. *)
Lemma hierarchical_filter_total (self : Self) (conflict : conflict_method)
    (layout : Layout) (min_score ct it : Q) (tol : Z) :
  attr__conflict self = Some conflict ->
  exists selected, _hierarchical_filter self layout min_score ct it tol = Ok selected.
Proof.
  intros E. unfold _hierarchical_filter.
  generalize (filter_candidates layout min_score) as cands.
  generalize (@nil TextBlock) as sel.
  intros sel cands. revert sel.
  induction cands as [| c rest IH]; intros sel; simpl; [eauto |].
  unfold filter_step. rewrite suppress_with_rules_total. simpl.
  destruct (existsb _ sel); simpl; [apply IH |].
  rewrite (remove_superseded_Some self ct it tol conflict) by exact E. simpl.
  apply IH.
Qed.

Lemma C4_idempotent_witness :
  _hierarchical_filter LayoutAnalyzer [inner_B; outer_A] (2 # 10) (9 # 10) (4 # 10) 0
  = Ok [outer_A]
  /\ _hierarchical_filter LayoutAnalyzer [outer_A] (2 # 10) (9 # 10) (4 # 10) 0
     = Ok [outer_A].
Proof.
  split; [reflexivity |].
  apply (C4_hierarchical_filter_idempotent LayoutAnalyzer [inner_B; outer_A]).
  reflexivity.
Defined.

(** ** Accepting a candidate *)

(** C1. The claim says that a candidate which passes the suppression test
    is handled normally: superseded regions leave [selected] and the
    candidate is appended.  In the class as written the eviction calls
    [self._conflict], a method the class does not have: as soon as
    [selected] holds one region, accepting a candidate raises
    [AttributeError], whatever candidates remain, and the filter returns
    nothing. *)
Theorem C1_accepting_with_nonempty_selected_raises
    (ct it : Q) (tol : Z) (selected : Layout) (c : TextBlock)
    (rest : list TextBlock) :
  selected <> [] ->
  _suppress_with_rules selected c ct it tol = Ok false ->
  filter_step LayoutAnalyzer ct it tol selected c
  = Raise (AttributeError "_conflict")
  /\ filter_loop LayoutAnalyzer ct it tol selected (c :: rest)
     = Raise (AttributeError "_conflict").
Proof.
  intros Hne Hs.
  assert (Hstep : filter_step LayoutAnalyzer ct it tol selected c
                  = Raise (AttributeError "_conflict")).
  { unfold filter_step. rewrite Hs. simpl.
    destruct selected as [| s sel]; [contradiction | reflexivity]. }
  split; [exact Hstep |]. simpl. now rewrite Hstep.
Qed.

Lemma C1_raises_witness :
  _hierarchical_filter LayoutAnalyzer [left_col; right_col]
    (2 # 10) (9 # 10) (4 # 10) 0
  = Raise (AttributeError "_conflict").
Proof.
  change (filter_loop LayoutAnalyzer (9 # 10) (4 # 10) 0 [left_col] [right_col]
          = Raise (AttributeError "_conflict")).
  apply (C1_accepting_with_nonempty_selected_raises
           (9 # 10) (4 # 10) 0 [left_col] right_col []);
    [discriminate | reflexivity].
Defined.

(** The class as written returns only when nothing had to be evicted from a
    non-empty accumulator, hence never more than one region. *)
Lemma filter_loop_as_written_short (ct it : Q) (tol : Z)
    (candidates : list TextBlock) (selected final : Layout) :
  (List.length selected <= 1)%nat ->
  filter_loop LayoutAnalyzer ct it tol selected candidates = Ok final ->
  (List.length final <= 1)%nat.
Proof.
  revert selected. induction candidates as [| c rest IH]; intros selected Hl; simpl.
  - now intros [= <-].
  - unfold filter_step. rewrite suppress_with_rules_total. simpl.
    destruct (existsb _ selected); simpl; [now apply IH |].
    destruct selected as [| s sel]; simpl; [| discriminate].
    apply IH. simpl. lia.
Qed.

(** ** Raising [min_score] *)

Lemma filter_filter_weaker {A : Type} (p q : A -> bool) (l : list A) :
  (forall x, q x = true -> p x = true) ->
  filter q (filter p l) = filter q l.
Proof.
  intros Hpq. induction l as [| x l IH]; [reflexivity |]. simpl.
  destruct (p x) eqn:Px; simpl.
  - now rewrite IH.
  - destruct (q x) eqn:Qx; [| exact IH].
    apply Hpq in Qx. congruence.
Qed.



Section Growth.
Variable self : Self.
Variables ct it : Q.
Variable tol : Z.



End Growth.




(** ** OverlapResolver *)

Lemma rect_intersects_spec (r1 r2 : Rectangle) :
  _rect_intersects r1 r2 = true <->
  x_1 r1 < x_2 r1 /\ x_1 r1 < x_2 r2 /\ x_1 r2 < x_2 r1 /\ x_1 r2 < x_2 r2
  /\ y_1 r1 < y_2 r1 /\ y_1 r1 < y_2 r2 /\ y_1 r2 < y_2 r1 /\ y_1 r2 < y_2 r2.
Proof.
  unfold _rect_intersects. cbv zeta.
  rewrite andb_true_iff, !gt_spec.
  split.
  - intros [Hx Hy]. revert Hx Hy. split_minmax; intros; repeat split; lra.
  - intros H. split; split_minmax; lra.
Qed.

Lemma rect_intersects_sym (r1 r2 : Rectangle) :
  _rect_intersects r1 r2 = _rect_intersects r2 r1.
Proof.
  apply eq_true_iff_eq. rewrite !rect_intersects_spec. tauto.
Qed.

Lemma rect_intersects_part (src out other : Rectangle) :
  vertical_part src out ->
  _rect_intersects out other = true -> _rect_intersects src other = true.
Proof.
  intros (Hx1 & Hx2 & Hy1 & Hy2). rewrite !rect_intersects_spec.
  rewrite Hx1, Hx2. intros H. repeat split; lra.
Qed.

Lemma rect_apart_part (src out other : Rectangle) :
  vertical_part src out ->
  _rect_intersects src other = false -> _rect_intersects out other = false.
Proof.
  intros Hp Hs. apply not_true_iff_false. intros H.
  apply (rect_intersects_part _ _ _ Hp) in H. congruence.
Qed.

Lemma vertical_part_refl (r : Rectangle) : vertical_part r r.
Proof. unfold vertical_part. repeat split; lra. Qed.

Lemma vertical_part_trans (a b c : Rectangle) :
  vertical_part a b -> vertical_part b c -> vertical_part a c.
Proof.
  unfold vertical_part. intros (A1 & A2 & A3 & A4) (B1 & B2 & B3 & B4).
  repeat split; try congruence; lra.
Qed.

(** No overlap, no intersection area. *)
Lemma intersectionArea_apart (r1 r2 : Rectangle) :
  _rect_intersects r1 r2 = false -> intersectionArea r1 r2 == 0.
Proof.
  unfold _rect_intersects, intersectionArea. cbv zeta.
  intros H. apply andb_false_iff in H.
  destruct H as [H | H]; apply gt_false in H.
  - destruct (max_cases 0 (Py.min (x_2 r1) (x_2 r2) - Py.max (x_1 r1) (x_1 r2)))
      as [[L E] | [L E]]; rewrite E; [lra | ring].
  - destruct (max_cases 0 (Py.min (y_2 r1) (y_2 r2) - Py.max (y_1 r1) (y_1 r2)))
      as [[L E] | [L E]]; rewrite E; [lra | ring].
Qed.

(** The rectangle [_subtract_overlap] builds before it checks it. *)
Lemma subtract_overlap_intersecting (src other : Rectangle) :
  _rect_intersects src other = true ->
  _subtract_overlap src other =
  let new_rect :=
    if Py.lt (y_1 src) (y_1 other) && Py.lt (y_1 other) (y_2 src)
    then mkRectangle (x_1 src) (y_1 src) (x_2 src) (y_1 other)
    else mkRectangle (x_1 src) (y_2 other) (x_2 src) (y_2 src) in
  if Py.le (x_2 new_rect - x_1 new_rect) 0 || Py.le (y_2 new_rect - y_1 new_rect) 0
  then None else Some new_rect.
Proof. intros H. unfold _subtract_overlap. now rewrite H. Qed.

(** What survives a subtraction is a proper vertical part of the source and
    no longer meets the other rectangle. *)
Lemma subtract_overlap_Some (src other out : Rectangle) :
  _rect_intersects src other = true ->
  _subtract_overlap src other = Some out ->
  vertical_part src out /\ proper out /\ _rect_intersects out other = false.
Proof.
  intros Hi. rewrite (subtract_overlap_intersecting _ _ Hi). cbv zeta.
  pose proof Hi as Hi'. apply rect_intersects_spec in Hi'.
  destruct (Py.lt (y_1 src) (y_1 other) && Py.lt (y_1 other) (y_2 src)) eqn:C;
    match goal with
    | |- (if ?g then _ else _) = _ -> _ => destruct g eqn:G
    end; try discriminate; intros [= <-]; simpl in *; reflect_cmp.
  - repeat split; simpl; try lra.
    apply not_true_iff_false. rewrite rect_intersects_spec. simpl. lra.
  - assert (Hlow : y_1 other <= y_1 src).
    { apply andb_false_iff in C. destruct C as [C | C]; reflect_cmp; lra. }
    repeat split; simpl; try lra.
    apply not_true_iff_false. rewrite rect_intersects_spec. simpl. lra.
Qed.

(** The inner loop returns a vertical part of the block's rectangle that
    meets no accepted block, and that is proper if it was clipped at all. *)
Lemma resolve_against_Some (resolved : list TextBlock) (rect out : Rectangle) :
  resolve_against rect resolved = Some out ->
  vertical_part rect out
  /\ Forall (fun a => _rect_intersects out (block a) = false) resolved
  /\ (out = rect \/ proper out).
Proof.
  revert rect. induction resolved as [| a rest IH]; intros rect; simpl.
  - intros [= <-]. split; [apply vertical_part_refl | auto].
  - destruct (_rect_intersects rect (block a)) eqn:Hi.
    + destruct (_subtract_overlap rect (block a)) as [new_rect |] eqn:Hs;
        [| discriminate].
      intros H. apply IH in H as (Hp & Hall & Hor).
      apply (subtract_overlap_Some _ _ _ Hi) in Hs as (Hp1 & Hproper & Hapart).
      split; [eapply vertical_part_trans; eassumption |].
      split.
      * constructor; [| exact Hall]. eapply rect_apart_part; eassumption.
      * right. destruct Hor as [-> | Hor]; assumption.
    + intros H. apply IH in H as (Hp & Hall & Hor).
      split; [exact Hp |]. split; [| exact Hor].
      constructor; [| exact Hall]. eapply rect_apart_part; eassumption.
Qed.

Lemma resolve_step_apart (resolved : list TextBlock) (blk : TextBlock) :
  StronglySorted apart resolved -> StronglySorted apart (resolve_step resolved blk).
Proof.
  intros Hs. unfold resolve_step.
  destruct (resolve_against (block blk) resolved) as [rect |] eqn:R; [| exact Hs].
  apply resolve_against_Some in R as (_ & Hall & _).
  apply sorted_snoc; [exact Hs |].
  eapply Forall_impl; [| exact Hall]. intros a Ha. exact Ha.
Qed.

Lemma resolve_fold_apart (blocks resolved : list TextBlock) :
  StronglySorted apart resolved ->
  StronglySorted apart (fold_left resolve_step blocks resolved).
Proof.
  revert resolved. induction blocks as [| b rest IH]; intros resolved Hs; simpl;
    [exact Hs |].
  apply IH. now apply resolve_step_apart.
Qed.

Lemma sorted_nth_lt {A : Type} (R : A -> A -> Prop) (l : list A) (i j : nat) (a b : A) :
  StronglySorted R l -> (i < j)%nat ->
  nth_error l i = Some a -> nth_error l j = Some b -> R a b.
Proof.
  intros Hs. revert i j. induction Hs as [| x l Hs IH Hx]; intros i j Hij Ha Hb.
  - destruct i; discriminate.
  - destruct j as [| j]; [lia |]. simpl in Hb.
    destruct i as [| i]; simpl in Ha.
    + injection Ha as <-. rewrite Forall_forall in Hx. apply Hx.
      eapply nth_error_In; eassumption.
    + apply (IH i j); auto. lia.
Qed.

(** C2. Disjointness: any two regions at different positions of the output
    of [_resolve_overlaps] have intersection area zero, whatever the input
    layout and whatever [area] the sort uses. *)
Theorem C2_resolve_overlaps_pairwise_disjoint
    (area : TextBlock -> Q) (layout : Layout) (i j : nat) (a b : TextBlock) :
  i <> j ->
  nth_error (_resolve_overlaps area layout) i = Some a ->
  nth_error (_resolve_overlaps area layout) j = Some b ->
  intersectionArea (block a) (block b) == 0.
Proof.
  intros Hij Ha Hb.
  assert (Hs : StronglySorted apart (_resolve_overlaps area layout))
    by (apply resolve_fold_apart; constructor).
  apply intersectionArea_apart.
  destruct (Nat.lt_ge_cases i j) as [L | L].
  - rewrite rect_intersects_sym.
    apply (sorted_nth_lt apart _ i j a b Hs L Ha Hb).
  - apply (sorted_nth_lt apart _ j i b a Hs); auto. lia.
Qed.

Lemma C2_disjoint_witness :
  intersectionArea (block half_A) (mkRectangle 0 (inject_Z 50) (inject_Z 100) (inject_Z 100)) == 0.
Proof.
  apply (C2_resolve_overlaps_pairwise_disjoint lp_area [full_B; half_A] 0 1
           half_A (mkTextBlock (mkRectangle 0 (inject_Z 50) (inject_Z 100) (inject_Z 100))
                               "table" (5 # 10)));
    [lia | reflexivity | reflexivity].
Defined.

Lemma proper_or_not (r : Rectangle) :
  Py.le (x_2 r - x_1 r) 0 || Py.le (y_2 r - y_1 r) 0 = false <-> proper r.
Proof.
  unfold proper. rewrite orb_false_iff, !le_false. reflexivity.
Qed.

Lemma resolve_fold_kept (blocks resolved : list TextBlock) (o : TextBlock) :
  In o (fold_left resolve_step blocks resolved) ->
  In o resolved
  \/ exists b, In b blocks /\ came_from b o /\ (block o = block b \/ proper (block o)).
Proof.
  revert resolved. induction blocks as [| blk rest IH]; intros resolved; simpl;
    [auto |].
  intros H. apply IH in H as [H | (b & Hb & Hc)].
  - unfold resolve_step in H.
    destruct (resolve_against (block blk) resolved) as [rect |] eqn:R; [| auto].
    apply in_app_or in H as [H | [<- | []]]; [auto |].
    right. exists blk. apply resolve_against_Some in R as (Hp & _ & Hor).
    split; [now left |]. split; [split; auto |]. simpl. tauto.
  - right. exists b. split; [now right | exact Hc].
Qed.

(** C8. For a current rectangle [r] that intersects an accepted [a]: the
    clipped rectangle is [[r.x1, r.y1, r.x2, a.y1]] when [r.y1 < a.y1 <
    r.y2] and [[r.x1, a.y2, r.x2, r.y2]] otherwise.  If it has positive
    width and height, [_subtract_overlap] returns it and the inner loop
    goes on with it against the remaining accepted blocks.  If its width or
    height is not positive, [_subtract_overlap] returns [None], the inner
    loop stops there whatever accepted blocks remain, and the block is not
    appended.  No clipped rectangle of non-positive width or height reaches
    the output: an output rectangle is either the untouched input rectangle
    or has positive width and height. *)
Theorem C8_clip_or_drop (r a : Rectangle) :
  _rect_intersects r a = true ->
  let clipped :=
    if Py.lt (y_1 r) (y_1 a) && Py.lt (y_1 a) (y_2 r)
    then mkRectangle (x_1 r) (y_1 r) (x_2 r) (y_1 a)
    else mkRectangle (x_1 r) (y_2 a) (x_2 r) (y_2 r) in
  (proper clipped ->
     _subtract_overlap r a = Some clipped
     /\ forall accepted rest, block accepted = a ->
          resolve_against r (accepted :: rest) = resolve_against clipped rest)
  /\ (x_2 clipped - x_1 clipped <= 0 \/ y_2 clipped - y_1 clipped <= 0 ->
        _subtract_overlap r a = None
        /\ forall accepted rest, block accepted = a ->
             resolve_against r (accepted :: rest) = None
             /\ forall before blk,
                  resolve_against (block blk) before = Some r ->
                  resolve_step (before ++ accepted :: rest) blk
                  = before ++ accepted :: rest)
  /\ (forall area layout o, In o (_resolve_overlaps area layout) ->
        (exists b, In b layout /\ block o = block b) \/ proper (block o)).
Proof.
  intros Hi clipped.
  pose proof (subtract_overlap_intersecting r a Hi) as Hsub.
  cbv zeta in Hsub. fold clipped in Hsub.
  split; [| split].
  - intros Hp. apply proper_or_not in Hp. rewrite Hp in Hsub.
    split; [exact Hsub |].
    intros accepted rest <-. simpl. now rewrite Hi, Hsub.
  - intros Hdeg.
    assert (E : Py.le (x_2 clipped - x_1 clipped) 0
                || Py.le (y_2 clipped - y_1 clipped) 0 = true).
    { apply orb_true_iff. rewrite !le_spec. exact Hdeg. }
    rewrite E in Hsub. split; [exact Hsub |].
    intros accepted rest <-.
    assert (Hstop : resolve_against r (accepted :: rest) = None)
      by (simpl; now rewrite Hi, Hsub).
    split; [exact Hstop |].
    intros before blk Hbefore. unfold resolve_step.
    assert (Hnone : resolve_against (block blk) (before ++ accepted :: rest) = None).
    { clear - Hbefore Hstop. revert Hbefore. generalize (block blk) as cur.
      induction before as [| p before IH]; intros cur; simpl.
      - now intros [= ->].
      - destruct (_rect_intersects cur (block p)); [| apply IH].
        destruct (_subtract_overlap cur (block p)); [apply IH | discriminate]. }
    now rewrite Hnone.
  - intros area layout o Ho. unfold _resolve_overlaps in Ho.
    apply resolve_fold_kept in Ho as [[] | (b & Hb & _ & Hor)].
    apply sorted_in in Hb.
    destruct Hor as [Heq | Hp]; [left; eauto | now right].
Qed.

Lemma C8_clip_or_drop_witness :
  _subtract_overlap (block full_B) (block half_A)
  = Some (mkRectangle 0 (inject_Z 50) (inject_Z 100) (inject_Z 100))
  /\ _subtract_overlap (block half_A) (block full_B) = None.
Proof.
  split.
  - apply (C8_clip_or_drop (block full_B) (block half_A)); [reflexivity |].
    split; reflexivity.
  - apply (C8_clip_or_drop (block half_A) (block full_B)); [reflexivity |].
    right. vm_compute. discriminate.
Defined.

(** C10. Every block of the resolver's output is made from one input block:
    same [x_1] and [x_2], a vertical interval within the source's, same
    label and same score.  The sources are met in the order of the sort, each
    at most once. *)
Theorem C10_resolve_overlaps_frame (area : TextBlock -> Q) (layout : Layout) :
  (exists sources,
      subseq sources (Py.sorted Py.lt area layout)
      /\ Forall2 came_from sources (_resolve_overlaps area layout))
  /\ (forall o, In o (_resolve_overlaps area layout) ->
        exists b, In b layout /\ came_from b o).
Proof.
  split.
  - unfold _resolve_overlaps.
    assert (Hgen : forall blocks done resolved,
               Forall2 came_from done resolved ->
               exists more, subseq more blocks
                 /\ Forall2 came_from (done ++ more)
                      (fold_left resolve_step blocks resolved)).
    { induction blocks as [| blk rest IH]; intros done resolved Hd; simpl.
      - exists []. rewrite app_nil_r. split; [apply subseq_nil | exact Hd].
      - unfold resolve_step at 2.
        destruct (resolve_against (block blk) resolved) as [rect |] eqn:R.
        + apply resolve_against_Some in R as (Hp & _ & _).
          destruct (IH (done ++ [blk])
                       (resolved ++ [mkTextBlock rect (type blk) (score blk)]))
            as (more & Hsub & Hall).
          { apply Forall2_app; [exact Hd |].
            constructor; [| constructor]. split; auto. }
          exists (blk :: more). split; [now apply subseq_keep |].
          now rewrite <- app_assoc in Hall.
        + destruct (IH done resolved Hd) as (more & Hsub & Hall).
          exists more. split; [now apply subseq_skip | exact Hall]. }
    destruct (Hgen (Py.sorted Py.lt area layout) [] []) as (more & Hsub & Hall);
      [constructor |].
    exists more. split; assumption.
  - intros o Ho. unfold _resolve_overlaps in Ho.
    apply resolve_fold_kept in Ho as [[] | (b & Hb & Hc & _)].
    exists b. split; [now apply sorted_in in Hb | exact Hc].
Qed.

(** ** TextAttacher *)

Lemma attach_to_first_none (r : Rectangle) (txt : string) (blocks : list Block) :
  Forall (fun t => _rect_intersects r (bbox_px t) = false) blocks ->
  attach_to_first r txt blocks = blocks.
Proof.
  induction 1 as [| t rest Ht _ IH]; [reflexivity |].
  simpl. now rewrite Ht, IH.
Qed.

Lemma attach_to_first_hit (r : Rectangle) (txt : string)
    (before after : list Block) (t : Block) :
  Forall (fun u => _rect_intersects r (bbox_px u) = false) before ->
  _rect_intersects r (bbox_px t) = true ->
  attach_to_first r txt (before ++ t :: after)
  = before ++ mkBlock (text t ++ txt ++ " ")%string (bbox_px t) (btype t) :: after.
Proof.
  intros Hb Ht. induction Hb as [| u rest Hu _ IH]; simpl.
  - now rewrite Ht.
  - now rewrite Hu, IH.
Qed.

Lemma truthy_false (s : string) : Py.truthy s = false <-> s = ""%string.
Proof. destruct s; simpl; split; congruence. Qed.

(** C7, as the code has it.  Spans are taken in order, each applied to the
    blocks the earlier ones left.  A span whose text is missing or blank
    after [strip()] changes nothing.  Otherwise the rectangle tested against
    the regions is [to_px_flipped] of the span rectangle: the
    CoordinateMapper image with its two ordinates taken from the page height
    in pixels and exchanged, [[px1, h*scale - py2, px2, h*scale - py1]];
    the stripped text followed by one space is appended to the first block,
    in the given order, whose rectangle intersects it, and every other block
    stays as it is; if no block intersects it, nothing changes. *)
Theorem C7_attach_text_first_match
    (h scale : Q) (blocks : list Block) (sp : Span) :
  (forall d,
      _attach_text blocks (mkPage h (d ++ [[[sp]]])) scale
      = attach_span h scale (_attach_text blocks (mkPage h d) scale) sp)
  /\ (span_txt sp = ""%string -> attach_span h scale blocks sp = blocks)
  /\ (span_txt sp <> ""%string ->
      let r := to_px_flipped h scale (span_bbox sp) in
      let m := mapped_rect h scale (span_bbox sp) in
      (x_1 r = x_1 m /\ y_1 r = h * scale - y_2 m
       /\ x_2 r = x_2 m /\ y_2 r = h * scale - y_1 m)
      /\ (Forall (fun t => _rect_intersects r (bbox_px t) = false) blocks ->
          attach_span h scale blocks sp = blocks)
      /\ (forall before t after,
            blocks = before ++ t :: after ->
            Forall (fun u => _rect_intersects r (bbox_px u) = false) before ->
            _rect_intersects r (bbox_px t) = true ->
            attach_span h scale blocks sp
            = before
              ++ mkBlock (text t ++ span_txt sp ++ " ")%string (bbox_px t) (btype t)
              :: after)).
Proof.
  split; [| split].
  - intros d. unfold _attach_text, spans_of. simpl.
    rewrite !concat_app, fold_left_app. reflexivity.
  - intros E. unfold attach_span. cbv zeta. now rewrite E.
  - intros Hne r m.
    assert (Hrun : forall bs, attach_span h scale bs sp
                              = attach_to_first r (span_txt sp) bs).
    { intros bs. unfold attach_span. cbv zeta.
      destruct (Py.truthy (span_txt sp)) eqn:T; [reflexivity |].
      apply truthy_false in T. contradiction. }
    split; [repeat split |]. split.
    + intros Hall. rewrite Hrun. now apply attach_to_first_none.
    + intros before t after -> Hb Ht. rewrite Hrun. now apply attach_to_first_hit.
Qed.

Lemma C7_attach_text_witness :
  attach_span (inject_Z 100) 1 [bottom_region; top_region] corner_span
  = [bottom_region; mkBlock "a " (bbox_px top_region) "text"].
Proof.
  pose proof (C7_attach_text_first_match (inject_Z 100) 1
                [bottom_region; top_region] corner_span) as (_ & _ & H).
  destruct H as (_ & _ & H); [discriminate |].
  apply (H [bottom_region] top_region []); [reflexivity | | reflexivity].
  repeat constructor.
Defined.

(** C7 as stated fails: the CoordinateMapper image of the span meets the
    region, yet nothing is attached, because the rectangle that is tested is
    the mirrored one. *)
Lemma C7_counterexample :
  span_text corner_span = Some " a "%string
  /\ _rect_intersects (mapped_rect (inject_Z 100) 1 (span_bbox corner_span))
                      (bbox_px bottom_region) = true
  /\ _attach_text [bottom_region] one_span_page 1 = [bottom_region].
Proof. repeat split. Qed.

(* ================================================================== *)
(** * Part III: further properties of the module *)
(* ================================================================== *)

(** ** Score threshold *)

(** X1. [_filter_layout_by_score] with a higher threshold only removes
    regions: filtering at [t1] and then at [t2 >= t1] is filtering at [t2],
    and the result at [t2] is a sub-sequence of the result at [t1]. *)
Theorem X1_filter_by_score_thresholds_compose (layout : Layout) (t1 t2 : Q) :
  t1 <= t2 ->
  _filter_layout_by_score (_filter_layout_by_score layout t1) t2
  = _filter_layout_by_score layout t2
  /\ subseq (_filter_layout_by_score layout t2) (_filter_layout_by_score layout t1).
Proof.
  intros Ht.
  assert (E : _filter_layout_by_score (_filter_layout_by_score layout t1) t2
              = _filter_layout_by_score layout t2).
  { unfold _filter_layout_by_score. apply filter_filter_weaker.
    intros b Hb. apply ge_spec. apply ge_spec in Hb. lra. }
  split; [exact E |]. rewrite <- E. apply subseq_filter.
Qed.

Lemma X1_filter_by_score_witness :
  subseq (_filter_layout_by_score [left_col; right_col; wide_left] (85 # 100))
         (_filter_layout_by_score [left_col; right_col; wide_left] (5 # 10)).
Proof.
  apply (X1_filter_by_score_thresholds_compose
           [left_col; right_col; wide_left] (5 # 10) (85 # 100)).
  vm_compute. discriminate.
Defined.

(** ** Containment with tolerance *)

Lemma contains_spec (outer inner : TextBlock) (tol : Z) :
  _contains outer inner tol = true <->
  x_1 (block outer) - inject_Z tol <= x_1 (block inner)
  /\ y_1 (block outer) - inject_Z tol <= y_1 (block inner)
  /\ x_2 (block inner) <= x_2 (block outer) + inject_Z tol
  /\ y_2 (block inner) <= y_2 (block outer) + inject_Z tol.
Proof.
  unfold _contains, coordinates.
  rewrite !andb_true_iff, !ge_spec, !le_spec. tauto.
Qed.

(** X2. Containment chains, and the tolerances add up: if [b] lies in [a]
    within [t1] and [c] lies in [b] within [t2], then [c] lies in [a] within
    [t1 + t2]. *)
Theorem X2_contains_transitive (a b c : TextBlock) (t1 t2 : Z) :
  _contains a b t1 = true ->
  _contains b c t2 = true ->
  _contains a c (t1 + t2) = true.
Proof.
  rewrite !contains_spec, inject_Z_plus. intros H1 H2. repeat split; lra.
Qed.

Lemma X2_contains_transitive_witness :
  _contains outer_A (box 20 20 30 30 "text" (1 # 10)) (0 + 0) = true.
Proof.
  apply (X2_contains_transitive outer_A inner_B); reflexivity.
Defined.

(** X3. For a tolerance that is not negative every box contains itself,
    and a containment that holds within [tol] holds within every larger
    tolerance. *)
Theorem X3_contains_reflexive_and_monotone (a b : TextBlock) (tol tol' : Z) :
  (0 <= tol)%Z -> (tol <= tol')%Z ->
  _contains a a tol = true
  /\ (_contains a b tol = true -> _contains a b tol' = true).
Proof.
  intros H0 Hle. rewrite !contains_spec.
  assert (Q0 : inject_Z 0 <= inject_Z tol) by (rewrite <- Zle_Qle; exact H0).
  change (inject_Z 0) with 0 in Q0.
  assert (Q1 : inject_Z tol <= inject_Z tol') by (rewrite <- Zle_Qle; exact Hle).
  split; [repeat split; lra |]. intros H. repeat split; lra.
Qed.

Lemma X3_contains_witness :
  _contains outer_A outer_A 0 = true
  /\ (_contains outer_A inner_B 0 = true -> _contains outer_A inner_B 5 = true).
Proof.
  apply (X3_contains_reflexive_and_monotone outer_A inner_B 0 5); lia.
Defined.

(** ** The two overlap ratios *)

(** As [split_minmax], also for the [Py.max]/[Py.min] left in hypotheses. *)
Ltac split_minmax_all :=
  split_minmax;
  repeat match goal with
  | H : context [Py.max ?a ?b] |- _ =>
      let H' := fresh "Hmax" in let E := fresh "Emax" in
      destruct (max_cases a b) as [[H' E] | [H' E]]; rewrite E in *; clear E
  | H : context [Py.min ?a ?b] |- _ =>
      let H' := fresh "Hmin" in let E := fresh "Emin" in
      destruct (min_cases a b) as [[H' E] | [H' E]]; rewrite E in *; clear E
  end.

Lemma max0_factor_sym (a1 a2 b1 b2 : Q) :
  Py.max 0 (Py.min a2 b2 - Py.max a1 b1) == Py.max 0 (Py.min b2 a2 - Py.max b1 a1).
Proof. split_minmax_all; lra. Qed.

Lemma intersectionArea_sym (r1 r2 : Rectangle) :
  intersectionArea r1 r2 == intersectionArea r2 r1.
Proof.
  unfold intersectionArea.
  rewrite (max0_factor_sym (x_1 r1) (x_2 r1) (x_1 r2) (x_2 r2)).
  rewrite (max0_factor_sym (y_1 r1) (y_2 r1) (y_1 r2) (y_2 r2)).
  reflexivity.
Qed.

Lemma iou_value_cases (a b : TextBlock) :
  let inter := intersectionArea (block a) (block b) in
  let union := _box_area a + _box_area b - inter in
  (0 < union /\ iou_value a b = inter / union)
  \/ (union == 0 /\ iou_value a b = 0).
Proof.
  cbv zeta. unfold iou_value. cbv zeta.
  pose proof (intersectionArea_le_r a b). pose proof (box_area_nonneg a).
  destruct (Py.gt _ 0) eqn:E.
  - left. apply gt_spec in E. auto.
  - right. apply gt_false in E. split; [lra | reflexivity].
Qed.

(** X4. [_iou] is symmetric: both orders return, and return equal values. *)
Theorem X4_iou_symmetric (a b : TextBlock) :
  exists v w, _iou a b = Ok v /\ _iou b a = Ok w /\ v == w.
Proof.
  exists (iou_value a b), (iou_value b a).
  split; [apply iou_total |]. split; [apply iou_total |].
  pose proof (intersectionArea_sym (block a) (block b)) as Hs.
  destruct (iou_value_cases a b) as [[Hu ->] | [Hu ->]];
    destruct (iou_value_cases b a) as [[Hu' ->] | [Hu' ->]].
  - rewrite Hs.
    assert (Eu : _box_area a + _box_area b - intersectionArea (block b) (block a)
                 == _box_area b + _box_area a - intersectionArea (block b) (block a))
      by ring.
    now rewrite Eu.
  - exfalso. lra.
  - exfalso. lra.
  - reflexivity.
Qed.

(** X5. The value [_iou] returns lies between 0 and 1. *)
Theorem X5_iou_between_0_and_1 (a b : TextBlock) :
  exists v, _iou a b = Ok v /\ 0 <= v <= 1.
Proof.
  exists (iou_value a b). split; [apply iou_total |].
  pose proof (intersectionArea_nonneg (block a) (block b)) as Hi.
  pose proof (intersectionArea_le_l a b) as Hl.
  pose proof (intersectionArea_le_r a b) as Hr.
  destruct (iou_value_cases a b) as [[Hu ->] | [Hu ->]]; [| lra].
  split.
  - apply Qle_shift_div_l; [exact Hu | lra].
  - apply Qle_shift_div_r; [exact Hu | lra].
Qed.

Lemma containment_value_cases (inner outer : TextBlock) :
  (0 < _box_area inner
   /\ containment_value inner outer
      = intersectionArea (block inner) (block outer) / _box_area inner)
  \/ (_box_area inner == 0 /\ containment_value inner outer = 0).
Proof.
  unfold containment_value. pose proof (box_area_nonneg inner).
  destruct (Py.gt _ 0) eqn:E.
  - left. apply gt_spec in E. auto.
  - right. apply gt_false in E. split; [lra | reflexivity].
Qed.

(** X6. The value [_containment_ratio] returns lies between 0 and 1. *)
Theorem X6_containment_ratio_between_0_and_1 (inner outer : TextBlock) :
  exists r, _containment_ratio inner outer = Ok r /\ 0 <= r <= 1.
Proof.
  exists (containment_value inner outer). split; [apply containment_ratio_total |].
  pose proof (intersectionArea_nonneg (block inner) (block outer)) as Hi.
  pose proof (intersectionArea_le_l inner outer) as Hl.
  destruct (containment_value_cases inner outer) as [[Hu ->] | [Hu ->]]; [| lra].
  split.
  - apply Qle_shift_div_l; [exact Hu | lra].
  - apply Qle_shift_div_r; [exact Hu | lra].
Qed.

(** X7. A box of positive area that lies inside another one (tolerance 0)
    has containment ratio 1 in it. *)
Theorem X7_contained_box_has_ratio_1 (outer inner : TextBlock) :
  _contains outer inner 0 = true ->
  0 < _box_area inner ->
  exists r, _containment_ratio inner outer = Ok r /\ r == 1.
Proof.
  intros Hc Ha.
  exists (containment_value inner outer). split; [apply containment_ratio_total |].
  destruct (containment_value_cases inner outer) as [[Hu ->] | [Hu _]]; [| lra].
  assert (E : intersectionArea (block inner) (block outer) == _box_area inner).
  { apply contains_spec in Hc. change (inject_Z 0) with 0 in Hc.
    rewrite box_area_unfold. unfold intersectionArea.
    assert (Ex : Py.min (x_2 (block inner)) (x_2 (block outer))
                 - Py.max (x_1 (block inner)) (x_1 (block outer))
                 == x_2 (block inner) - x_1 (block inner))
      by (split_minmax; lra).
    assert (Ey : Py.min (y_2 (block inner)) (y_2 (block outer))
                 - Py.max (y_1 (block inner)) (y_1 (block outer))
                 == y_2 (block inner) - y_1 (block inner))
      by (split_minmax; lra).
    assert (Fx : Py.max 0 (Py.min (x_2 (block inner)) (x_2 (block outer))
                           - Py.max (x_1 (block inner)) (x_1 (block outer)))
                 == Py.max 0 (x_2 (block inner) - x_1 (block inner))).
    { revert Ex. split_minmax; intros; lra. }
    assert (Fy : Py.max 0 (Py.min (y_2 (block inner)) (y_2 (block outer))
                           - Py.max (y_1 (block inner)) (y_1 (block outer)))
                 == Py.max 0 (y_2 (block inner) - y_1 (block inner))).
    { revert Ey. split_minmax; intros; lra. }
    now rewrite Fx, Fy. }
  rewrite E. field. lra.
Qed.

Lemma X7_contained_witness :
  exists r, _containment_ratio inner_B outer_A = Ok r /\ r == 1.
Proof.
  apply (X7_contained_box_has_ratio_1 outer_A inner_B);
    [reflexivity | vm_compute; reflexivity].
Defined.

(** X8. Two boxes whose rectangles do not intersect have IoU 0 and
    containment ratio 0. *)
Theorem X8_apart_boxes_have_zero_ratios (a b : TextBlock) :
  _rect_intersects (block a) (block b) = false ->
  (exists v, _iou a b = Ok v /\ v == 0)
  /\ (exists r, _containment_ratio a b = Ok r /\ r == 0).
Proof.
  intros H. apply intersectionArea_apart in H. split.
  - exists (iou_value a b). split; [apply iou_total |].
    destruct (iou_value_cases a b) as [[Hu ->] | [Hu ->]]; [| reflexivity].
    rewrite H. field. lra.
  - exists (containment_value a b). split; [apply containment_ratio_total |].
    destruct (containment_value_cases a b) as [[Hu ->] | [Hu ->]]; [| reflexivity].
    rewrite H. field. lra.
Qed.

Lemma X8_apart_witness :
  (exists v, _iou left_col right_col = Ok v /\ v == 0)
  /\ (exists r, _containment_ratio left_col right_col = Ok r /\ r == 0).
Proof.
  apply (X8_apart_boxes_have_zero_ratios left_col right_col). reflexivity.
Defined.

(** ** More on the suppression test *)

(** X9. With a tolerance that is not negative, a candidate with the
    coordinates of a region already selected is suppressed, whatever the two
    thresholds and the scores are. *)
Theorem X9_duplicate_candidate_suppressed
    (selected : Layout) (s c : TextBlock) (ct it : Q) (tol : Z) :
  (0 <= tol)%Z ->
  In s selected ->
  coordinates s = coordinates c ->
  _suppress_with_rules selected c ct it tol = Ok true.
Proof.
  intros H0 Hin Hc. rewrite suppress_with_rules_total. f_equal.
  apply existsb_exists. exists s. split; [exact Hin |].
  unfold suppress_pair.
  assert (E : _contains s c tol = true).
  { apply contains_spec. unfold coordinates in Hc.
    injection Hc as E1 E2 E3 E4. rewrite <- E1, <- E2, <- E3, <- E4.
    assert (Q0 : inject_Z 0 <= inject_Z tol) by (rewrite <- Zle_Qle; exact H0).
    change (inject_Z 0) with 0 in Q0. repeat split; lra. }
  now rewrite E.
Qed.

Lemma X9_duplicate_witness :
  _suppress_with_rules [left_col; right_col] (box 20 0 30 10 "table" (1 # 10))
    (2 # 1) (2 # 1) 0 = Ok true.
Proof.
  apply (X9_duplicate_candidate_suppressed [left_col; right_col] right_col);
    [lia | right; left; reflexivity | reflexivity].
Defined.

(** X10. Loosening the test only suppresses more: with lower thresholds, a
    larger tolerance and more selected regions, a candidate that was
    suppressed is still suppressed. *)
Theorem X10_suppression_monotone
    (selected selected' : Layout) (c : TextBlock) (ct ct' it it' : Q) (tol tol' : Z) :
  ct' <= ct -> it' <= it -> (tol <= tol')%Z ->
  (forall s, In s selected -> In s selected') ->
  _suppress_with_rules selected c ct it tol = Ok true ->
  _suppress_with_rules selected' c ct' it' tol' = Ok true.
Proof.
  intros Hct Hit Htol Hincl. rewrite !suppress_with_rules_total.
  intros [= H]. f_equal.
  apply existsb_exists in H as (s & Hin & Hs).
  apply existsb_exists. exists s. split; [auto |].
  unfold suppress_pair in *.
  apply orb_true_iff in Hs as [Hs | Hs]; [apply orb_true_iff in Hs as [Hs | Hs] |].
  - assert (E : _contains s c tol' = true).
    { apply contains_spec. apply contains_spec in Hs.
      assert (Q1 : inject_Z tol <= inject_Z tol') by (rewrite <- Zle_Qle; exact Htol).
      repeat split; lra. }
    now rewrite E.
  - assert (E : Py.ge (containment_value c s) ct' = true).
    { apply ge_spec. apply ge_spec in Hs. lra. }
    rewrite E. now rewrite orb_true_r.
  - assert (E : Py.ge (iou_value c s) it' = true).
    { apply ge_spec. apply ge_spec in Hs. lra. }
    rewrite E. now rewrite orb_true_r.
Qed.

Lemma X10_suppression_monotone_witness :
  _suppress_with_rules [left_col; outer_A] inner_B (8 # 10) (3 # 10) 2 = Ok true.
Proof.
  apply (X10_suppression_monotone [outer_A] [left_col; outer_A] inner_B
           (9 # 10) (8 # 10) (4 # 10) (3 # 10) 0 2).
  - vm_compute. discriminate.
  - vm_compute. discriminate.
  - lia.
  - intros s [<- | []]. right. now left.
  - reflexivity.
Defined.

(** ** What the hierarchical filter returns *)

(** X11. Whatever [_hierarchical_filter] returns is a sub-sequence of the
    sorted candidates: every returned region is a region of the input with
    a score of at least [min_score], the result is in the order of the sort
    key and has at most as many regions as the input. *)
Theorem X11_hierarchical_filter_returns_candidates
    (self : Self) (layout : Layout) (min_score ct it : Q) (tol : Z)
    (selected : Layout) :
  _hierarchical_filter self layout min_score ct it tol = Ok selected ->
  subseq selected (filter_candidates layout min_score)
  /\ (forall b, In b selected -> In b layout /\ min_score <= score b)
  /\ StronglySorted precedes selected
  /\ (List.length selected <= List.length layout)%nat.
Proof.
  unfold _hierarchical_filter. intros H.
  pose proof (filter_loop_subseq _ _ _ _ _ _ _ H) as Hsub. simpl in Hsub.
  split; [exact Hsub |]. split; [| split].
  - intros b Hb. apply candidates_in. eapply subseq_In; eassumption.
  - eapply subseq_sorted; [exact Hsub | apply candidates_sorted].
  - pose proof (subseq_filter_length (fun _ => true) _ _ Hsub) as Hl.
    rewrite !filter_all in Hl by (apply Forall_forall; auto).
    rewrite (Permutation_length (candidates_perm layout min_score)) in Hl.
    etransitivity; [exact Hl |]. apply filter_length_le.
Qed.

Lemma X11_returns_candidates_witness :
  subseq [outer_A] (filter_candidates [inner_B; outer_A] (2 # 10))
  /\ (forall b, In b [outer_A] -> In b [inner_B; outer_A] /\ (2 # 10) <= score b)
  /\ StronglySorted precedes [outer_A]
  /\ (List.length [outer_A] <= List.length [inner_B; outer_A])%nat.
Proof.
  apply (X11_hierarchical_filter_returns_candidates LayoutAnalyzer
           [inner_B; outer_A] (2 # 10) (9 # 10) (4 # 10) 0).
  reflexivity.
Defined.

Lemma filter_loop_as_written_from_one (ct it : Q) (tol : Z) (c0 : TextBlock)
    (rest : list TextBlock) (final : Layout) :
  filter_loop LayoutAnalyzer ct it tol [c0] rest = Ok final
  <-> final = [c0] /\ Forall (fun c => redundant_with ct it tol c0 c) rest.
Proof.
  induction rest as [| c rest IH]; simpl.
  - split; [intros [= <-]; auto | intros [-> _]; reflexivity].
  - unfold filter_step. rewrite suppress_with_rules_total. simpl.
    rewrite orb_false_r.
    destruct (suppress_pair ct it tol c c0) eqn:E; simpl.
    + rewrite IH. apply suppress_pair_redundant in E.
      split; intros [Hf Hall]; split; auto.
      now inversion Hall.
    + split; [discriminate |]. intros [_ Hall]. inversion Hall; subst.
      apply suppress_pair_redundant in H1. congruence.
Qed.

(** X13. The class as written returns exactly in two cases: no candidate
    reaches [min_score], and the result is empty; or every candidate after
    the first of the sorted order is redundant with that first one, and the
    result is that single region.  In every other case it raises. *)
Theorem X13_as_written_returns_iff_first_covers_all
    (layout : Layout) (min_score ct it : Q) (tol : Z) (selected : Layout) :
  _hierarchical_filter LayoutAnalyzer layout min_score ct it tol = Ok selected
  <-> match filter_candidates layout min_score with
      | [] => selected = []
      | c0 :: rest =>
          selected = [c0] /\ Forall (fun c => redundant_with ct it tol c0 c) rest
      end.
Proof.
  unfold _hierarchical_filter.
  destruct (filter_candidates layout min_score) as [| c0 rest]; simpl.
  - split; [intros [= <-]; reflexivity | intros ->; reflexivity].
  - apply filter_loop_as_written_from_one.
Qed.

(** ** The sort *)

(** X14. [_sorted_by_score_then_area] returns a rearrangement of its input,
    sorting twice is sorting once, and, the sort being stable, it commutes
    with the score filter. *)
Theorem X14_sort_idempotent_and_commutes_with_filter
    (boxes : list TextBlock) (score_threshold : Q) :
  Permutation (_sorted_by_score_then_area boxes) boxes
  /\ _sorted_by_score_then_area (_sorted_by_score_then_area boxes)
     = _sorted_by_score_then_area boxes
  /\ _filter_layout_by_score (_sorted_by_score_then_area boxes) score_threshold
     = _sorted_by_score_then_area (_filter_layout_by_score boxes score_threshold).
Proof.
  unfold _sorted_by_score_then_area, _filter_layout_by_score.
  split; [apply sorted_perm |]. split.
  - apply sorted_id. apply sorted_sorted; [apply tuple_lt_asym | apply tuple_ge_trans].
  - apply filter_sorted; [apply tuple_lt_asym | apply tuple_ge_trans].
Qed.

(** ** More on rectangles and the resolver *)

Lemma rect_intersects_area_pos (r1 r2 : Rectangle) :
  _rect_intersects r1 r2 = true <-> 0 < intersectionArea r1 r2.
Proof.
  split.
  - intros H. apply rect_intersects_spec in H. unfold intersectionArea.
    apply Qmult_lt_0_compat; split_minmax_all; lra.
  - intros H. destruct (_rect_intersects r1 r2) eqn:E; [reflexivity |].
    apply intersectionArea_apart in E. lra.
Qed.

(** X15. Two boxes intersect, in the sense of [_rect_intersects], exactly
    when their IoU is positive; the test does not depend on the order of
    its arguments. *)
Theorem X15_intersects_iff_iou_positive (a b : TextBlock) :
  (_rect_intersects (block a) (block b) = true
   <-> exists v, _iou a b = Ok v /\ 0 < v)
  /\ _rect_intersects (block a) (block b) = _rect_intersects (block b) (block a).
Proof.
  split; [| apply rect_intersects_sym].
  rewrite rect_intersects_area_pos, iou_total.
  pose proof (intersectionArea_le_l a b) as Hl.
  pose proof (intersectionArea_le_r a b) as Hr.
  pose proof (intersectionArea_nonneg (block a) (block b)) as Hi.
  split.
  - intros H. exists (iou_value a b). split; [reflexivity |].
    destruct (iou_value_cases a b) as [[Hu ->] | [Hu ->]]; [| lra].
    apply Qlt_shift_div_l; [exact Hu | lra].
  - intros (v & [= <-] & Hv).
    destruct (iou_value_cases a b) as [[Hu E] | [Hu E]]; rewrite E in Hv; [| lra].
    destruct (Qlt_le_dec 0 (intersectionArea (block a) (block b))) as [L | L];
      [exact L |].
    exfalso.
    assert (E0 : intersectionArea (block a) (block b) == 0) by lra.
    rewrite E0 in Hv. unfold Qdiv in Hv. rewrite Qmult_0_l in Hv. lra.
Qed.

(** X16. Whatever [_subtract_overlap] returns, other than [None], keeps
    the horizontal extent of the source, lies within its vertical extent and
    does not intersect the rectangle that was subtracted. *)
Theorem X16_subtract_overlap_result_apart (src other out : Rectangle) :
  _subtract_overlap src other = Some out ->
  vertical_part src out /\ _rect_intersects out other = false.
Proof.
  destruct (_rect_intersects src other) eqn:Hi.
  - intros H. apply (subtract_overlap_Some _ _ _ Hi) in H as (Hp & _ & Ha). auto.
  - unfold _subtract_overlap. rewrite Hi. simpl. intros [= <-].
    split; [apply vertical_part_refl | exact Hi].
Qed.

Lemma X16_subtract_overlap_witness :
  vertical_part (block full_B) (mkRectangle 0 (inject_Z 50) (inject_Z 100) (inject_Z 100))
  /\ _rect_intersects (mkRectangle 0 (inject_Z 50) (inject_Z 100) (inject_Z 100))
                      (block half_A) = false.
Proof.
  apply (X16_subtract_overlap_result_apart (block full_B) (block half_A)).
  reflexivity.
Defined.

Lemma apart_sym (a b : TextBlock) : apart a b -> apart b a.
Proof. unfold apart. now rewrite rect_intersects_sym. Qed.

Lemma pairwise_disjoint_perm (l l' : Layout) :
  Permutation l l' -> pairwise_disjoint l -> pairwise_disjoint l'.
Proof.
  unfold pairwise_disjoint.
  induction 1 as [| x l l' Hp IH | x y l | l l' l'' H1 IH1 H2 IH2]; intros Hs.
  - constructor.
  - inversion Hs; subst. constructor; [auto |].
    eapply Permutation_Forall; eassumption.
  - inversion Hs as [| ? ? Hs' Hy]; subst.
    inversion Hs' as [| ? ? Hs'' Hx]; subst.
    inversion Hy as [| ? ? Hyx Hyl]; subst.
    constructor; [constructor; assumption |].
    constructor; [now apply apart_sym | assumption].
  - auto.
Qed.

Lemma textblock_eta (b : TextBlock) : mkTextBlock (block b) (type b) (score b) = b.
Proof. now destruct b. Qed.

Lemma resolve_against_untouched (rect : Rectangle) (resolved : list TextBlock) :
  Forall (fun a => _rect_intersects rect (block a) = false) resolved ->
  resolve_against rect resolved = Some rect.
Proof.
  induction 1 as [| a rest Ha _ IH]; [reflexivity |]. simpl. now rewrite Ha.
Qed.

Lemma resolve_fold_disjoint (blocks resolved : list TextBlock) :
  pairwise_disjoint (resolved ++ blocks) ->
  fold_left resolve_step blocks resolved = resolved ++ blocks.
Proof.
  revert resolved. induction blocks as [| blk rest IH]; intros resolved Hs; simpl.
  - now rewrite app_nil_r.
  - pose proof (sorted_app_before _ _ _ _ Hs) as Hpre.
    unfold resolve_step at 2.
    rewrite resolve_against_untouched by exact Hpre.
    rewrite textblock_eta.
    replace (resolved ++ blk :: rest) with ((resolved ++ [blk]) ++ rest)
      by (now rewrite <- app_assoc).
    apply IH. now rewrite <- app_assoc.
Qed.

(** X17. On a layout whose blocks are pairwise disjoint,
    [_resolve_overlaps] clips and drops nothing: it returns the blocks
    sorted by area. *)
Theorem X17_resolve_overlaps_disjoint_input
    (area : TextBlock -> Q) (layout : Layout) :
  pairwise_disjoint layout ->
  _resolve_overlaps area layout = Py.sorted Py.lt area layout.
Proof.
  intros H. unfold _resolve_overlaps.
  apply (resolve_fold_disjoint _ []). simpl.
  eapply pairwise_disjoint_perm; [| exact H].
  symmetry. apply sorted_perm.
Qed.

Lemma X17_disjoint_input_witness :
  _resolve_overlaps lp_area [right_col; left_col]
  = Py.sorted Py.lt lp_area [right_col; left_col].
Proof.
  apply X17_resolve_overlaps_disjoint_input.
  repeat constructor.
Defined.

(** X18. Resolving a second time changes nothing but the order: the output
    of [_resolve_overlaps], resolved again, is that output sorted by area
    (clipping changes areas, so the first output need not be sorted). *)
Theorem X18_resolve_overlaps_twice (area : TextBlock -> Q) (layout : Layout) :
  _resolve_overlaps area (_resolve_overlaps area layout)
  = Py.sorted Py.lt area (_resolve_overlaps area layout).
Proof.
  unfold _resolve_overlaps at 1.
  apply (resolve_fold_disjoint _ []). simpl.
  eapply pairwise_disjoint_perm; [symmetry; apply sorted_perm |].
  apply resolve_fold_apart. constructor.
Qed.

Lemma resolve_fold_keeps (blocks resolved : list TextBlock) (x : TextBlock) :
  In x resolved -> In x (fold_left resolve_step blocks resolved).
Proof.
  revert resolved. induction blocks as [| b rest IH]; intros resolved Hin; simpl;
    [exact Hin |].
  apply IH. unfold resolve_step.
  destruct (resolve_against (block b) resolved); [apply in_or_app; now left | exact Hin].
Qed.

Lemma resolve_fold_isolated (before after resolved : list TextBlock) (blk : TextBlock) :
  Forall (fun o => _rect_intersects (block blk) (block o) = false) before ->
  Forall (fun a => _rect_intersects (block blk) (block a) = false) resolved ->
  In blk (fold_left resolve_step (before ++ blk :: after) resolved).
Proof.
  intros Hb. revert resolved.
  induction Hb as [| o before Ho _ IH]; intros resolved Hr; simpl.
  - apply resolve_fold_keeps. unfold resolve_step.
    rewrite resolve_against_untouched by exact Hr.
    rewrite textblock_eta. apply in_or_app. right. now left.
  - apply IH. unfold resolve_step.
    destruct (resolve_against (block o) resolved) as [rect |] eqn:R; [| exact Hr].
    apply Forall_app. split; [exact Hr |].
    constructor; [| constructor]. simpl.
    apply resolve_against_Some in R as (Hp & _ & _).
    rewrite rect_intersects_sym. eapply rect_apart_part; [exact Hp |].
    now rewrite rect_intersects_sym.
Qed.

(** X19. A block that intersects none of the other blocks of the layout is
    in the output of [_resolve_overlaps] unchanged. *)
Theorem X19_isolated_block_kept
    (area : TextBlock -> Q) (l1 l2 : Layout) (blk : TextBlock) :
  Forall (fun o => _rect_intersects (block blk) (block o) = false) (l1 ++ l2) ->
  In blk (_resolve_overlaps area (l1 ++ blk :: l2)).
Proof.
  intros Hall. unfold _resolve_overlaps.
  pose proof (sorted_perm Py.lt area (l1 ++ blk :: l2)) as Hp.
  assert (Hin : In blk (Py.sorted Py.lt area (l1 ++ blk :: l2))).
  { apply sorted_in. apply in_elt. }
  apply in_split in Hin as (p & q & E). rewrite E in *.
  apply Permutation_app_inv in Hp.
  apply resolve_fold_isolated; [| constructor].
  assert (Hpq : Forall (fun o => _rect_intersects (block blk) (block o) = false)
                       (p ++ q)).
  { eapply Permutation_Forall; [symmetry; exact Hp | exact Hall]. }
  apply Forall_app in Hpq. tauto.
Qed.

Lemma X19_isolated_block_witness :
  In (box 200 0 230 10 "text" (8 # 10))
     (_resolve_overlaps lp_area
        ([full_B] ++ box 200 0 230 10 "text" (8 # 10) :: [half_A])).
Proof.
  apply X19_isolated_block_kept. simpl. repeat constructor.
Defined.

Lemma improper_meets_nothing (r o : Rectangle) :
  ~ proper r -> _rect_intersects r o = false.
Proof.
  intros Hn. apply not_true_iff_false. intros H.
  apply rect_intersects_spec in H. apply Hn. unfold proper. lra.
Qed.

(** X20. A block whose rectangle has no positive width or no positive
    height passes through [_resolve_overlaps] unchanged: it intersects
    nothing, so it is neither clipped nor dropped. *)
Theorem X20_degenerate_block_passes_through
    (area : TextBlock -> Q) (layout : Layout) (blk : TextBlock) :
  In blk layout ->
  ~ proper (block blk) ->
  In blk (_resolve_overlaps area layout).
Proof.
  intros Hin Hn. unfold _resolve_overlaps.
  apply (sorted_in Py.lt area) in Hin.
  apply in_split in Hin as (p & q & ->).
  apply resolve_fold_isolated; apply Forall_forall; intros o _;
    now apply improper_meets_nothing.
Qed.

Lemma X20_degenerate_block_witness :
  In (box 10 10 10 60 "line" (9 # 10))
     (_resolve_overlaps lp_area [full_B; box 10 10 10 60 "line" (9 # 10); half_A]).
Proof.
  apply X20_degenerate_block_passes_through.
  - right. now left.
  - unfold proper. simpl. intros [H _]. vm_compute in H. discriminate.
Defined.

(** ** More on the coordinate map *)

(** X29. For a scale that is not negative the map keeps rectangles
    normalised, and it reverses the vertical order: a rectangle [a] with
    [x0 <= x1] and [y0 <= y1] has an image with [x1' <= x2'] and
    [y1' <= y2'], and if [a] ends where [b] begins or before ([a.y1 <=
    b.y0]), the image of [b] ends where the image of [a] begins or before. *)
Theorem X29_rect_to_image_xy_normalised_and_reversed
    (a b : FitzRect) (h scale : Q) :
  0 <= scale ->
  let '(ax1, ay1, ax2, ay2) := _rect_to_image_xy a h scale in
  let '(bx1, by1, bx2, by2) := _rect_to_image_xy b h scale in
  (x0 a <= x1 a -> ax1 <= ax2)
  /\ (y0 a <= y1 a -> ay1 <= ay2)
  /\ (y1 a <= y0 b -> by2 <= ay1).
Proof.
  intros Hs. unfold _rect_to_image_xy. repeat split; intros H; nra.
Qed.

Lemma X29_normalised_and_reversed_witness :
  let '(ax1, ay1, ax2, ay2) :=
    _rect_to_image_xy (mkFitzRect 1 2 3 5) (inject_Z 100) (DEFAULT_DPI / inject_Z 72) in
  let '(bx1, by1, bx2, by2) :=
    _rect_to_image_xy (mkFitzRect 1 7 3 9) (inject_Z 100) (DEFAULT_DPI / inject_Z 72) in
  (1 <= 3 -> ax1 <= ax2) /\ (2 <= 5 -> ay1 <= ay2) /\ (5 <= 7 -> by2 <= ay1).
Proof.
  apply (X29_rect_to_image_xy_normalised_and_reversed
           (mkFitzRect 1 2 3 5) (mkFitzRect 1 7 3 9) (inject_Z 100)
           (DEFAULT_DPI / inject_Z 72)).
  vm_compute. discriminate.
Defined.

(** ** More on text attachment *)

Lemma prefix_nil (s : string) : String.prefix "" s = true.
Proof. now destruct s. Qed.

Lemma prefix_refl (s : string) : String.prefix s s = true.
Proof.
  induction s as [| c s IH]; [reflexivity |]. simpl.
  destruct (ascii_dec c c); [exact IH | contradiction].
Qed.

Lemma prefix_app (s t : string) : String.prefix s (s ++ t) = true.
Proof.
  induction s as [| c s IH]; [apply prefix_nil |]. simpl.
  destruct (ascii_dec c c); [exact IH | contradiction].
Qed.

Lemma prefix_trans (s t u : string) :
  String.prefix s t = true -> String.prefix t u = true -> String.prefix s u = true.
Proof.
  revert t u. induction s as [| c s IH]; intros t u; [intros; apply prefix_nil |].
  destruct t as [| d t]; simpl; [discriminate |].
  destruct (ascii_dec c d) as [-> |]; [| discriminate].
  destruct u as [| e u]; simpl; [discriminate |].
  destruct (ascii_dec d e) as [-> |]; [| discriminate].
  apply IH.
Qed.

Lemma extends_refl (b : Block) : extends b b.
Proof. unfold extends. auto using prefix_refl. Qed.

Lemma extends_trans (a b c : Block) : extends a b -> extends b c -> extends a c.
Proof.
  unfold extends. intros (A1 & A2 & A3) (B1 & B2 & B3).
  repeat split; try congruence. eapply prefix_trans; eassumption.
Qed.

Lemma Forall2_extends_refl (blocks : list Block) : Forall2 extends blocks blocks.
Proof. induction blocks; constructor; auto using extends_refl. Qed.

Lemma Forall2_extends_trans (l1 l2 l3 : list Block) :
  Forall2 extends l1 l2 -> Forall2 extends l2 l3 -> Forall2 extends l1 l3.
Proof.
  intros H. revert l3. induction H as [| a b l1 l2 Hab _ IH]; intros l3 H23.
  - inversion H23. constructor.
  - inversion H23; subst. constructor; [eapply extends_trans; eassumption | auto].
Qed.

Lemma attach_to_first_extends (r : Rectangle) (txt : string) (blocks : list Block) :
  Forall2 extends blocks (attach_to_first r txt blocks).
Proof.
  induction blocks as [| t rest IH]; simpl; [constructor |].
  destruct (_rect_intersects r (bbox_px t)).
  - constructor; [| apply Forall2_extends_refl].
    unfold extends. simpl. auto using prefix_app.
  - constructor; [apply extends_refl | exact IH].
Qed.

Lemma attach_span_extends (h scale : Q) (blocks : list Block) (sp : Span) :
  Forall2 extends blocks (attach_span h scale blocks sp).
Proof.
  unfold attach_span. cbv zeta.
  destruct (negb (Py.truthy (span_txt sp)));
    [apply Forall2_extends_refl | apply attach_to_first_extends].
Qed.

Lemma attach_fold_extends (h scale : Q) (spans : list Span) (blocks : list Block) :
  Forall2 extends blocks (fold_left (attach_span h scale) spans blocks).
Proof.
  revert blocks. induction spans as [| sp spans IH]; intros blocks; simpl.
  - apply Forall2_extends_refl.
  - eapply Forall2_extends_trans; [apply attach_span_extends | apply IH].
Qed.

(** X23. [_attach_text] only appends text: the result has the same blocks
    in the same order, each with its rectangle and label unchanged and a
    text that starts with the text it had. *)
Theorem X23_attach_text_only_appends (blocks : list Block) (page : Page) (scale : Q) :
  Forall2 extends blocks (_attach_text blocks page scale)
  /\ List.length (_attach_text blocks page scale) = List.length blocks.
Proof.
  assert (H : Forall2 extends blocks (_attach_text blocks page scale))
    by apply attach_fold_extends.
  split; [exact H |]. symmetry. eapply Forall2_length. exact H.
Qed.

(** X24. With regions that do not intersect one another, the order of the
    regions does not matter for a span that lies within one of them: if the
    tested rectangle has positive width and height and lies within the
    rectangle of [t], the text goes to [t], wherever [t] stands in the
    list. *)
Theorem X24_span_inside_one_region
    (h scale : Q) (before after : list Block) (t : Block) (sp : Span) :
  span_txt sp <> ""%string ->
  proper (to_px_flipped h scale (span_bbox sp)) ->
  rect_inside (to_px_flipped h scale (span_bbox sp)) (bbox_px t) ->
  Forall (fun u => _rect_intersects (bbox_px u) (bbox_px t) = false) (before ++ after) ->
  attach_span h scale (before ++ t :: after) sp
  = before
    ++ mkBlock (text t ++ span_txt sp ++ " ")%string (bbox_px t) (btype t) :: after.
Proof.
  intros Hne Hp Hin Hall.
  set (r := to_px_flipped h scale (span_bbox sp)) in *.
  assert (Hrun : attach_span h scale (before ++ t :: after) sp
                 = attach_to_first r (span_txt sp) (before ++ t :: after)).
  { unfold attach_span. cbv zeta.
    destruct (Py.truthy (span_txt sp)) eqn:T; [reflexivity |].
    apply truthy_false in T. contradiction. }
  rewrite Hrun. destruct Hp as [Hw Hh]. destruct Hin as (I1 & I2 & I3 & I4).
  apply attach_to_first_hit.
  - apply Forall_app in Hall as [Hb _].
    eapply Forall_impl; [| exact Hb]. intros u Hu. simpl in Hu.
    apply not_true_iff_false. intros Hru.
    apply not_true_iff_false in Hu. apply Hu.
    apply rect_intersects_spec in Hru. apply rect_intersects_spec.
    repeat split; lra.
  - apply rect_intersects_spec. repeat split; lra.
Qed.

Lemma X24_span_inside_witness :
  attach_span (inject_Z 100) 1 ([bottom_region] ++ top_region :: []) corner_span
  = [bottom_region]
    ++ mkBlock ("" ++ span_txt corner_span ++ " ")%string
         (bbox_px top_region) (btype top_region) :: [].
Proof.
  apply (X24_span_inside_one_region (inject_Z 100) 1 [bottom_region] [] top_region
           corner_span).
  - discriminate.
  - split; vm_compute; reflexivity.
  - repeat split; vm_compute; discriminate.
  - repeat constructor.
Defined.

(** ** The resolved-text pipeline *)

(** X25. On the class as written, whatever
    [analyze_page_with_resolved_text] returns is settled by the first
    candidate of the sorted order: with no candidate the result is empty;
    otherwise every later candidate is redundant with the first one and the
    result is a single block with the rectangle and the label of that first
    candidate, unclipped. *)
Theorem X25_resolved_text_as_written_single_block
    (area : TextBlock -> Q) (raw_layout : Layout) (page : Page)
    (min_score ct it : Q) (tol : Z) (blocks : list Block) :
  analyze_page_with_resolved_text area LayoutAnalyzer raw_layout page
    min_score ct it tol = Ok blocks ->
  match filter_candidates raw_layout min_score with
  | [] => blocks = []
  | c0 :: rest =>
      Forall (fun c => redundant_with ct it tol c0 c) rest
      /\ exists txt, blocks = [mkBlock txt (block c0) (type c0)]
  end.
Proof.
  unfold analyze_page_with_resolved_text, analyze_page_hierarchical.
  destruct (_hierarchical_filter LayoutAnalyzer raw_layout min_score ct it tol)
    as [filtered | e] eqn:F; simpl; [| discriminate].
  intros [= <-]. unfold _hierarchical_filter in F.
  destruct (filter_candidates raw_layout min_score) as [| c0 rest].
  - simpl in F. injection F as <-.
    pose proof (attach_fold_extends (rect_height page) (DEFAULT_DPI / inject_Z 72)
                  (spans_of (text_dict page)) []) as H.
    inversion H. unfold _attach_text. simpl. congruence.
  - change (filter_loop LayoutAnalyzer ct it tol [c0] rest = Ok filtered) in F.
    apply filter_loop_as_written_from_one in F as [-> Hall].
    split; [exact Hall |].
    pose proof (attach_fold_extends (rect_height page) (DEFAULT_DPI / inject_Z 72)
                  (spans_of (text_dict page))
                  (blocks_of_layout (_resolve_overlaps area [c0]))) as H.
    unfold _resolve_overlaps in H. simpl in H. unfold resolve_step in H. simpl in H.
    unfold _attach_text, _resolve_overlaps. simpl. unfold resolve_step. simpl.
    inversion H as [| b0 o l l' Hext Hrest E1 E2]; subst.
    inversion Hrest; subst.
    destruct o as [txt bb ty]. destruct Hext as (Hb & Ht & _). simpl in Hb, Ht.
    subst. now exists txt.
Qed.

Lemma X25_resolved_text_witness :
  Forall (fun c => redundant_with (8 # 10) (9 # 10) 2 outer_A c) [inner_B]
  /\ exists txt, [mkBlock "a " (block outer_A) "text"]
                 = [mkBlock txt (block outer_A) (type outer_A)].
Proof.
  exact (X25_resolved_text_as_written_single_block lp_area [inner_B; outer_A]
           one_span_page (5 # 100) (8 # 10) (9 # 10) 2
           [mkBlock "a " (block outer_A) "text"] eq_refl).
Defined.

(** ** Edge cases *)

(** X26. [_box_area] is positive exactly for boxes of positive width and
    height; for every other box, inverted ones included, it is 0 and never
    negative. *)
Theorem X26_box_area_positive_iff_proper (b : TextBlock) :
  (0 < _box_area b <-> proper (block b))
  /\ (~ proper (block b) -> _box_area b == 0).
Proof.
  rewrite box_area_unfold. unfold proper.
  assert (Hpos : proper (block b) ->
                 0 < Py.max 0 (x_2 (block b) - x_1 (block b))
                     * Py.max 0 (y_2 (block b) - y_1 (block b))).
  { intros [Hw Hh]. apply Qmult_lt_0_compat; split_minmax_all; lra. }
  assert (Hzero : ~ proper (block b) ->
                  Py.max 0 (x_2 (block b) - x_1 (block b))
                  * Py.max 0 (y_2 (block b) - y_1 (block b)) == 0).
  { unfold proper. intros Hn.
    destruct (max_cases 0 (x_2 (block b) - x_1 (block b))) as [[Lx Ex] | [Lx Ex]];
      rewrite Ex; [| ring].
    destruct (max_cases 0 (y_2 (block b) - y_1 (block b))) as [[Ly Ey] | [Ly Ey]];
      rewrite Ey; [| ring].
    exfalso. apply Hn. split; assumption. }
  split; [| exact Hzero]. split; [| exact Hpos].
  intros H.
  destruct (Qlt_le_dec 0 (x_2 (block b) - x_1 (block b))) as [Lx | Lx];
    destruct (Qlt_le_dec 0 (y_2 (block b) - y_1 (block b))) as [Ly | Ly];
    try (split; assumption);
    exfalso; rewrite Hzero in H by (unfold proper; lra); lra.
Qed.

Lemma filter_step_nonempty (self : Self) (ct it : Q) (tol : Z)
    (selected selected' : Layout) (c : TextBlock) :
  filter_step self ct it tol selected c = Ok selected' ->
  existsb (suppress_pair ct it tol c) selected = true \/ selected' <> [].
Proof.
  intros H. apply filter_step_Ok in H as [[E _] | [_ ->]]; [now left | right].
  intros E. apply app_eq_nil in E as [_ E]. discriminate.
Qed.

Lemma filter_loop_nonempty (self : Self) (ct it : Q) (tol : Z)
    (candidates : list TextBlock) (selected final : Layout) :
  selected <> [] \/ candidates <> [] ->
  filter_loop self ct it tol selected candidates = Ok final ->
  final <> [].
Proof.
  revert selected. induction candidates as [| c rest IH]; intros selected Hne; simpl.
  - intros [= <-]. destruct Hne as [H | H]; [exact H | contradiction].
  - destruct (filter_step self ct it tol selected c) as [mid |] eqn:S;
      simpl; [| discriminate].
    apply IH. left.
    pose proof S as S'. apply filter_step_nonempty in S' as [E | E]; [| exact E].
    apply filter_step_Ok in S as [[_ ->] | [E' _]]; [| congruence].
    intros ->. discriminate.
Qed.

(** X27. An empty result is no error and means one thing only: when
    [_hierarchical_filter] returns, the result is empty exactly when no
    region of the input reaches [min_score]; and if none does, it returns
    the empty layout. *)
Theorem X27_empty_result_iff_no_candidate
    (self : Self) (layout : Layout) (min_score ct it : Q) (tol : Z) :
  (Forall (fun b => score b < min_score) layout ->
   _hierarchical_filter self layout min_score ct it tol = Ok [])
  /\ (_hierarchical_filter self layout min_score ct it tol = Ok [] ->
      Forall (fun b => score b < min_score) layout).
Proof.
  unfold _hierarchical_filter. split.
  - intros H.
    assert (E : filter_candidates layout min_score = []).
    { destruct (filter_candidates layout min_score) as [| c rest] eqn:C;
        [reflexivity |].
      assert (Hc : In c (filter_candidates layout min_score))
        by (rewrite C; now left).
      apply candidates_in in Hc as [Hin Hsc].
      rewrite Forall_forall in H. specialize (H c Hin). lra. }
    now rewrite E.
  - intros H. apply Forall_forall. intros b Hb.
    destruct (Qlt_le_dec (score b) min_score) as [L | L]; [exact L |].
    exfalso.
    assert (Hc : In b (filter_candidates layout min_score))
      by (apply candidates_in; auto).
    eapply (filter_loop_nonempty self ct it tol _ [] []); [| exact H | reflexivity].
    right. intros E. rewrite E in Hc. contradiction.
Qed.

Lemma lt_asym_key (a b : Q) : Py.lt a b = true -> Py.lt b a = false.
Proof. rewrite lt_spec, lt_false. lra. Qed.

Lemma ge_trans_key (a b c : Q) :
  Py.lt b a = false -> Py.lt c b = false -> Py.lt c a = false.
Proof. rewrite !lt_false. lra. Qed.

Lemma resolve_fold_extends (blocks resolved : list TextBlock) :
  exists more, fold_left resolve_step blocks resolved = resolved ++ more.
Proof.
  revert resolved. induction blocks as [| b rest IH]; intros resolved; simpl.
  - exists []. now rewrite app_nil_r.
  - unfold resolve_step at 2.
    destruct (resolve_against (block b) resolved) as [rect |]; [| apply IH].
    destruct (IH (resolved ++ [mkTextBlock rect (type b) (score b)])) as (more & E).
    exists (mkTextBlock rect (type b) (score b) :: more).
    rewrite E. now rewrite <- app_assoc.
Qed.

(** X28. The smallest block is kept intact: on a non-empty layout the
    output of [_resolve_overlaps] starts with a block of the input,
    unchanged, whose area is the least of the layout. *)
Theorem X28_smallest_block_first_and_intact
    (area : TextBlock -> Q) (layout : Layout) :
  layout <> [] ->
  exists blk more,
    _resolve_overlaps area layout = blk :: more
    /\ In blk layout
    /\ forall b, In b layout -> area blk <= area b.
Proof.
  intros Hne. unfold _resolve_overlaps.
  pose proof (sorted_sorted Py.lt area lt_asym_key ge_trans_key layout) as Hs.
  pose proof (sorted_in Py.lt area layout) as Hin.
  destruct (Py.sorted Py.lt area layout) as [| blk rest] eqn:E.
  - destruct layout as [| b l]; [contradiction |].
    exfalso. apply (Hin b). now left.
  - simpl. unfold resolve_step at 2. simpl. rewrite textblock_eta.
    destruct (resolve_fold_extends rest [blk]) as (more & Hm).
    exists blk, more. split; [exact Hm |].
    split; [apply Hin; now left |].
    intros b Hb. apply Hin in Hb as [<- | Hb]; [lra |].
    inversion Hs as [| ? ? _ Hall]; subst.
    rewrite Forall_forall in Hall. specialize (Hall b Hb).
    unfold Py.in_order in Hall. now apply lt_false in Hall.
Qed.

Lemma X28_smallest_block_witness :
  exists blk more,
    _resolve_overlaps lp_area [full_B; half_A] = blk :: more
    /\ In blk [full_B; half_A]
    /\ forall b, In b [full_B; half_A] -> lp_area blk <= lp_area b.
Proof.
  apply (X28_smallest_block_first_and_intact lp_area [full_B; half_A]).
  discriminate.
Defined.
